(** * XParser: the expression component, its operations and its tree

    A shallow embedding of the Lightning web component [XParser]
    (tokenizer, operation registry, [calculate]), of the classes
    [Value], [Operation] and [Node] that sit next to it, and of
    [swapPeriodsAndCommas] from [utils.js], followed by the
    properties of the specification stated over that embedding.

    JavaScript objects are references: nodes live in a store and are
    named by their address, so that a child's [parent] field and its
    parent's [children] array can point at each other as they do in
    the running program. *)

From Stdlib Require Import QArith Ascii.
From stdpp Require Import gmap strings list.

Open Scope string_scope.
Open Scope list_scope.

(** ** The JavaScript runtime the source relies on *)

Module JS.

(** *** Numbers

    A JavaScript number is an IEEE-754 double.  The model keeps the
    exact rational value of a finite number and the three special
    values; rounding and the sign of zero are not represented. *)

Inductive number :=
  | Finite (q : Q)
  | NaN
  | Infinity (negative : bool).

Definition is_zero (q : Q) : bool := Z.eqb (Qnum q) 0.
Definition is_negative (q : Q) : bool := Z.ltb (Qnum q) 0.

Definition number_neg (a : number) : number :=
  match a with
  | Finite x => Finite (Qred (- x))
  | NaN => NaN
  | Infinity s => Infinity (negb s)
  end.

Definition number_add (a b : number) : number :=
  match a, b with
  | NaN, _ | _, NaN => NaN
  | Finite x, Finite y => Finite (Qred (x + y))
  | Finite _, Infinity s | Infinity s, Finite _ => Infinity s
  | Infinity s, Infinity t => if Bool.eqb s t then Infinity s else NaN
  end.

Definition number_sub (a b : number) : number := number_add a (number_neg b).

Definition number_mul (a b : number) : number :=
  match a, b with
  | NaN, _ | _, NaN => NaN
  | Finite x, Finite y => Finite (Qred (x * y))
  | Finite x, Infinity s | Infinity s, Finite x =>
      if is_zero x then NaN else Infinity (xorb (is_negative x) s)
  | Infinity s, Infinity t => Infinity (xorb s t)
  end.

Definition number_div (a b : number) : number :=
  match a, b with
  | NaN, _ | _, NaN => NaN
  | Finite x, Finite y =>
      if is_zero y
      then (if is_zero x then NaN else Infinity (is_negative x))
      else Finite (Qred (x / y))
  | Finite _, Infinity _ => Finite 0
  | Infinity s, Finite y => Infinity (xorb s (is_negative y))
  | Infinity _, Infinity _ => NaN
  end.

(** The integer part of a rational, rounding towards zero. *)
Definition truncate (q : Q) : Q := inject_Z (Z.quot (Qnum q) (Zpos (Qden q))).

(** [%] is the remainder of the truncated division: the result has
    the sign of the dividend. *)
Definition number_rem (a b : number) : number :=
  match a, b with
  | NaN, _ | _, NaN => NaN
  | Infinity _, _ => NaN
  | Finite x, Infinity _ => Finite x
  | Finite x, Finite y =>
      if is_zero y then NaN else Finite (Qred (x - y * truncate (x / y)))
  end.

Definition of_Z (z : Z) : number := Finite (inject_Z z).
Definition of_nat (n : nat) : number := of_Z (Z.of_nat n).

(** *** Values

    The values that reach the arithmetic of this program: [undefined],
    [null] and numbers.  A slot that holds either [undefined] or a
    value of one known shape (a string, an array, an object of one
    class) is an [option] of that shape, [None] standing for
    [undefined]. *)

Inductive JSValue :=
  | JSUndefined
  | JSNull
  | JSNumber (n : number).

(** [value === null] *)
Definition is_null (v : JSValue) : bool :=
  match v with JSNull => true | _ => false end.

Definition ToNumber (v : JSValue) : number :=
  match v with
  | JSUndefined => NaN
  | JSNull => Finite 0
  | JSNumber n => n
  end.

(** The binary operators [+ - * / %] on these values. *)
Definition js_add (a b : JSValue) : JSValue := JSNumber (number_add (ToNumber a) (ToNumber b)).
Definition js_sub (a b : JSValue) : JSValue := JSNumber (number_sub (ToNumber a) (ToNumber b)).
Definition js_mul (a b : JSValue) : JSValue := JSNumber (number_mul (ToNumber a) (ToNumber b)).
Definition js_div (a b : JSValue) : JSValue := JSNumber (number_div (ToNumber a) (ToNumber b)).
Definition js_rem (a b : JSValue) : JSValue := JSNumber (number_rem (ToNumber a) (ToNumber b)).

(** *** JSON

    What [JSON.stringify] produces, kept as the value the text spells
    and not as the text itself: writing a number out and escaping a
    string are the work of the runtime.  [JOpaque] is what the
    serializer makes of a value the model keeps no detail of. *)
Inductive JSON :=
  | JNull
  | JBoolean (b : bool)
  | JNumber (n : number)
  | JString (s : string)
  | JArray (elements : list JSON)
  | JObject (properties : list (string * JSON))
  | JOpaque.

(** The JSON of a value held by a property: a property holding
    [undefined] is left out, and a number that is not finite is
    written [null]. *)
Definition JSON_of_value (v : JSValue) : option JSON :=
  match v with
  | JSUndefined => None
  | JSNull => Some JNull
  | JSNumber (Finite q) => Some (JNumber (Finite q))
  | JSNumber _ => Some JNull
  end.

(** One property of an object being serialized, left out when its
    value has no JSON. *)
Definition property (key : string) (value : option JSON) : list (string * JSON) :=
  match value with
  | Some j => [(key, j)]
  | None => []
  end.

(** *** Errors, console output and completions *)

(** The error classes of the runtime, those the source imports, and
    [LexError], a name of the specification that no code path
    constructs. *)
Inductive ErrorClass :=
  | TypeError
  | ReferenceError
  | RangeError
  | NullValueError
  | ExpressionEvaluationError
  | LexError.

(** An error object.  Its message is [message], followed, when
    [appended] is given, by the text of that JSON. *)
Record JSError := mkError {
  error_class : ErrorClass;
  message : string;
  appended : option JSON
}.

(** A function the caller hands over; only its identity matters. *)
Inductive Callback := CallbackFn (id : nat).

(** What a run does that can be seen from outside. *)
Inductive Event :=
  | ConsoleLog (text : string)
  | CallbackCall (callback : Callback) (argument : JSValue)
  | ExecuteCall (operation : string) (values : list JSValue).

Inductive Completion (A : Type) :=
  | Normal (a : A)
  | Throw (e : JSError).
Arguments Normal {A} a.
Arguments Throw {A} e.

(** A run: the events it produced, in order, and how it ended. *)
Record Run (A : Type) := mkRun { events : list Event; completion : Completion A }.
Arguments mkRun {A} events completion.
Arguments events {A} r.
Arguments completion {A} r.

#[global] Instance Run_ret : MRet Run := λ A a, mkRun [] (Normal a).

#[global] Instance Run_bind : MBind Run := λ A B k m,
  match completion m with
  | Normal a => mkRun (events m ++ events (k a)) (completion (k a))
  | Throw e => mkRun (events m) (Throw e)
  end.

Definition throw {A} (c : ErrorClass) (msg : string) : Run A :=
  mkRun [] (Throw (mkError c msg None)).

(** [throw new c(msg + text)], [text] being the text of [json]. *)
Definition throw_appending {A} (c : ErrorClass) (msg : string) (json : JSON) : Run A :=
  mkRun [] (Throw (mkError c msg (Some json))).

Definition console_log (text : string) : Run unit :=
  mkRun [ConsoleLog text] (Normal tt).

(** The class of the exception a run ended with, if it ended so. *)
Definition raised {A} (r : Run A) : option ErrorClass :=
  match completion r with
  | Normal _ => None
  | Throw e => Some (error_class e)
  end.

(** A loop [for (let x of l) { s = body(x, s) }] whose body may throw. *)
Fixpoint for_of {A S : Type} (body : A → S → Run S) (l : list A) (s : S) : Run S :=
  match l with
  | [] => mret s
  | x :: l' => s' ← body x s; for_of body l' s'
  end.

(** *** Array methods *)

(** [values.reduce(f)] without an initial value: the first element
    seeds the accumulator; an empty array is a TypeError. *)
Definition Array_reduce (f : JSValue → JSValue → JSValue) (values : list JSValue) : Run JSValue :=
  match values with
  | [] => throw TypeError "Reduce of empty array with no initial value"
  | first :: rest => mret (fold_left f rest first)
  end.

(** [values.forEach(f)]: [f] receives each element and its index, what
    it returns is dropped, and the call itself yields [undefined]. *)
Definition Array_forEach (f : JSValue → JSValue → JSValue) (values : list JSValue) : Run JSValue :=
  let _ := imap (λ index element, f element (JSNumber (of_nat index))) values in
  mret JSUndefined.

(** *** String methods *)

Definition chars (s : string) : list string :=
  (λ c, String c EmptyString) <$> String.list_ascii_of_string s.

(** [s.replaceAll(pattern, replacement)] for a one-character pattern. *)
Definition replaceAll (pattern replacement : string) (s : string) : string :=
  fold_right (λ c acc, (if String.eqb c pattern then replacement else c) +:+ acc) "" (chars s).

(** [regexp.test(str)] for a regular expression that is one character
    class: some character of [str] is in the class. *)
Definition test_class (class : Ascii.ascii → bool) (str : string) : bool :=
  existsb class (String.list_ascii_of_string str).

Definition in_range (lo hi : N) (c : Ascii.ascii) : bool :=
  (lo <=? Ascii.N_of_ascii c)%N && (Ascii.N_of_ascii c <=? hi)%N.

End JS.

Import JS.

(** ** utils.js *)

Module Utils.

(** What one character contributes to [result]. *)
Definition swapped (char : string) : string :=
  if String.eqb char "," then "."
  else if String.eqb char "." then ","
  else char.

(** The local [result] once the loop of [swapPeriodsAndCommas] is over. *)
Definition swapPeriodsAndCommas_result (str : string) : string :=
  fold_left (λ result char, result +:+ swapped char) (chars str) "".

(** The arrow function builds [result] and ends without a [return]:
    the call yields [undefined]. *)
Definition swapPeriodsAndCommas (str : string) : option string :=
  let result := swapPeriodsAndCommas_result str in
  None.

End Utils.

(** ** class Value *)

Module Value.

(** The payload: a literal, or the name of a variable. *)
Inductive payload :=
  | Literal (v : JSValue)
  | Name (s : string).

Record t := mk { value : payload; isVariable : bool }.

(** [constructor(value, isVariable=false)] *)
Definition new (value : payload) (isVariable : option bool) : t :=
  {| value := value; isVariable := default false isVariable |}.

End Value.

(** ** class Operation *)

Module Operation.

Record t := mk {
  name : string;
  isFunction : bool;
  (** The own property [execute]: a function, or [undefined]. *)
  execute : option (list JSValue → Run JSValue)
}.

(** [constructor(name, isFunction, executeFunction)].  The last
    assignment reads [this.executeFunction], a property the object does
    not have, and not the parameter: the own property [execute] is set
    to [undefined] and hides the method of the class. *)
Definition new (name : string) (isFunction : bool)
    (executeFunction : list JSValue → Run JSValue) : t :=
  let this_executeFunction : option (list JSValue → Run JSValue) := None in
  {| name := name; isFunction := isFunction; execute := this_executeFunction |}.

(** The call [operation.execute(values)]. *)
Definition call_execute (operation : t) (values : list JSValue) : Run JSValue :=
  match execute operation with
  | None => throw TypeError "execute is not a function"
  | Some f => mkRun [ExecuteCall (name operation) values] (Normal tt);; f values
  end.

End Operation.

(** ** class Tree: the null-handling modes *)

Module Tree.

Definition DROP_NULL : string := "drop_null".
Definition NULL_AS_ZERO : string := "null_as_zero".
Definition THROW_ERROR_ON_NULL : string := "throw_error".

(** What a [nullHandlingMode] field may hold: a string, or any other
    value.  Another value is known by what the program can see of it:
    the text [+] turns it into, if it can be turned into text (a
    Symbol cannot), and what [JSON.stringify] makes of it, if
    anything. *)
Inductive mode :=
  | Text (s : string)
  | NotText (text : option string) (json : option JSON).

(** [mode === constant], for a constant that is a string. *)
Definition equals (m : mode) (constant : string) : bool :=
  match m with
  | Text s => String.eqb s constant
  | NotText _ _ => false
  end.

(** The text of ['...' + mode]. *)
Definition to_text (m : mode) : Run string :=
  match m with
  | Text s => mret s
  | NotText (Some text) _ => mret text
  | NotText None _ => throw TypeError "Cannot convert a Symbol value to a string"
  end.

Definition to_JSON (m : mode) : option JSON :=
  match m with
  | Text s => Some (JString s)
  | NotText _ json => json
  end.

(** A tree object: the address of its root node and its mode. *)
Record t := mk { root : nat; nullHandlingMode : mode }.

End Tree.

Coercion Tree.Text : string >-> Tree.mode.

(** ** class Node *)

Module Node.

(** The address of a node object. *)
Definition addr := nat.

(** What [item] holds, as [instanceof] tells it apart. *)
Inductive Item :=
  | ItemOperation (o : Operation.t)
  | ItemValue (v : Value.t)
  | ItemOther.

Definition instanceof_Operation (i : Item) : bool :=
  match i with ItemOperation _ => true | _ => false end.

Definition instanceof_Value (i : Item) : bool :=
  match i with ItemValue _ => true | _ => false end.

Record t := mk {
  (** [null] for the root, else the parent node. *)
  parent : option addr;
  item : Item;
  children : list addr;
  result : JSValue;
  nullHandlingMode : Tree.mode
}.

Definition set_nullHandlingMode (mode : Tree.mode) (node : t) : t :=
  mk (parent node) (item node) (children node) (result node) mode.

(** The store of node objects. *)
Abbreviation heap := (gmap addr t).

(** Reading a node through a reference.  A reference always leads to
    an object in a running program; an address without one behaves as
    [undefined] whose properties are read. *)
Definition deref (h : heap) (a : addr) : Run t :=
  match h !! a with
  | Some node => mret node
  | None => throw TypeError "Cannot read properties of undefined"
  end.

(** The JSON of an item.  An operation has the own properties [name],
    [isFunction] and [execute], the last one holding [undefined] or a
    function and left out either way; a value has [isVariable] and
    [value]. *)
Definition item_JSON (i : Item) : JSON :=
  match i with
  | ItemOperation o =>
      JObject [("name", JString (Operation.name o));
               ("isFunction", JBoolean (Operation.isFunction o))]
  | ItemValue v =>
      JObject (("isVariable", JBoolean (Value.isVariable v))
               :: property "value"
                    match Value.value v with
                    | Value.Literal l => JSON_of_value l
                    | Value.Name s => Some (JString s)
                    end)
  | ItemOther => JOpaque
  end.

(** The JSON of a node, given those of its parent and of its
    children: the own properties in the order the class declares
    them. *)
Definition object_JSON (node : t) (parent : JSON) (children : list JSON) : JSON :=
  JObject ([("parent", parent); ("item", item_JSON (item node));
            ("children", JArray children)]
           ++ property "result" (JSON_of_value (result node))
           ++ property "nullHandlingMode" (Tree.to_JSON (nullHandlingMode node))).

(** [JSON.stringify(node)].  The serializer keeps the objects it is
    inside of on a stack and raises a TypeError when it meets one of
    them again; only [parent] and [children] lead to other nodes.
    [budget] is the room left on the call stack. *)
Fixpoint JSON_serialize (h : heap) (budget : nat) (stack : list addr) (a : addr) : Run JSON :=
  match budget with
  | O => throw RangeError "Maximum call stack size exceeded"
  | S budget =>
      if bool_decide (a ∈ stack)
      then throw TypeError "Converting circular structure to JSON"
      else
        node ← deref h a;
        let stack := a :: stack in
        parent ← match parent node with
                 | None => mret JNull
                 | Some p => JSON_serialize h budget stack p
                 end;
        children ← for_of (λ child elements,
                             element ← JSON_serialize h budget stack child;
                             mret (elements ++ [element]))
                          (children node) [];
        mret (object_JSON node parent children)
  end.

(** A walk never nests deeper than the number of objects. *)
Definition JSON_stringify (h : heap) (a : addr) : Run JSON :=
  JSON_serialize h (S (size h)) [] a.

(** The loop of [_childrenAreAllValuesOrNoChildren]. *)
Fixpoint all_items_are_values (h : heap) (children : list addr) : Run bool :=
  match children with
  | [] => mret true
  | child :: rest =>
      c ← deref h child;
      if negb (instanceof_Value (item c)) then mret false
      else all_items_are_values h rest
  end.

Definition _childrenAreAllValuesOrNoChildren (h : heap) (this : addr) : Run bool :=
  node ← deref h this;
  if Nat.eqb (length (children node)) 0 then mret false
  else all_items_are_values h (children node).

(** Collects the items of the children into the local [values] and
    ends without a [return]: the call yields [undefined]. *)
Definition _getValuesOfChildren (h : heap) (this : addr) : Run (option (list JSValue)) :=
  node ← deref h this;
  values ← for_of (λ child (values : list Item),
                     c ← deref h child;
                     if instanceof_Value (item c) then mret (values ++ [item c])
                     else mret values)
                  (children node) [];
  mret None.

(** [validatedValues.push(x)] *)
Definition push (x : JSValue) (validatedValues : list JSValue) : list JSValue :=
  validatedValues ++ [x].

(** One turn of the loop of [validateValues].  Only the [DROP_NULL]
    branch leaves the turn with [continue]; the others fall through to
    the last [push]. *)
Definition validate_value (h : heap) (this : addr) (mode : Tree.mode)
    (value : JSValue) (validatedValues : list JSValue) : Run (list JSValue) :=
  if is_null value then
    if Tree.equals mode Tree.NULL_AS_ZERO then
      let validatedValues := push (JSNumber (of_Z 0)) validatedValues in
      mret (push value validatedValues)
    else if Tree.equals mode Tree.DROP_NULL then
      mret validatedValues
    else if Tree.equals mode Tree.THROW_ERROR_ON_NULL then
      json ← JSON_stringify h this;
      throw_appending NullValueError
        "Value was null. Current Node being evaluated when null:" json
    else
      text ← Tree.to_text mode;
      console_log ("WARNING: Invalid NullHandlingMode given: " +:+ text
                   +:+ ". Falling back to NULL_AS_ZERO.");;
      let validatedValues := push (JSNumber (of_Z 0)) validatedValues in
      mret (push value validatedValues)
  else
    mret (push value validatedValues).

(** [validateValues(values)]; [None] is the argument [undefined]. *)
Definition validateValues (h : heap) (this : addr) (values : option (list JSValue))
    : Run (list JSValue) :=
  match values with
  | None => throw TypeError "values is not iterable"
  | Some values =>
      node ← deref h this;
      for_of (validate_value h this (nullHandlingMode node)) values []
  end.

(** The call [this.item.execute(values)]. *)
Definition item_execute (i : Item) (values : list JSValue) : Run JSValue :=
  match i with
  | ItemOperation o => Operation.call_execute o values
  | ItemValue _ | ItemOther => throw TypeError "this.item.execute is not a function"
  end.

(** The three statements both branches of [execute] share. *)
Definition execute_item (h : heap) (this : addr) (node : t) : Run unit :=
  values ← _getValuesOfChildren h this;
  values ← validateValues h this values;
  item_execute (item node) values;;
  mret tt.

(** [execute()].  No path has a [return]: a call that completes
    yields [undefined].  [depth] is the room left on the call stack. *)
Fixpoint execute (h : heap) (depth : nat) (this : addr) : Run JSValue :=
  match depth with
  | O => throw RangeError "Maximum call stack size exceeded"
  | S depth =>
      node ← deref h this;
      leaf ← _childrenAreAllValuesOrNoChildren h this;
      if (leaf : bool) && instanceof_Operation (item node) then
        execute_item h this node;;
        mret JSUndefined
      else
        for_of (λ child _, execute h depth child;; mret tt) (children node) tt;;
        leaf ← _childrenAreAllValuesOrNoChildren h this;
        (if leaf : bool then execute_item h this node else mret tt);;
        mret JSUndefined
  end.

End Node.

(** ** class XParser *)

Module XParser.

(** The fields of the component; each is [undefined] until assigned.
    [operations] is a plain object used as a map from names to
    operations. *)
Record t := mk {
  tree : option Tree.t;
  expression : option string;
  variableMap : option (gmap string JSValue);
  callback : option Callback;
  operations : option (gmap string Operation.t);
  tokens : option (list string);
  _internationalFormat : option bool
}.

(** A component none of whose fields has been assigned. *)
Definition fresh : t := mk None None None None None None None.

Definition set__internationalFormat (v : bool) (this : t) : t :=
  mk (tree this) (expression this) (variableMap this) (callback this)
     (operations this) (tokens this) (Some v).
Definition set_expression (v : string) (this : t) : t :=
  mk (tree this) (Some v) (variableMap this) (callback this)
     (operations this) (tokens this) (_internationalFormat this).
Definition set_variableMap (v : gmap string JSValue) (this : t) : t :=
  mk (tree this) (expression this) (Some v) (callback this)
     (operations this) (tokens this) (_internationalFormat this).
Definition set_callback (v : Callback) (this : t) : t :=
  mk (tree this) (expression this) (variableMap this) (Some v)
     (operations this) (tokens this) (_internationalFormat this).
Definition set_operations (v : gmap string Operation.t) (this : t) : t :=
  mk (tree this) (expression this) (variableMap this) (callback this)
     (Some v) (tokens this) (_internationalFormat this).
Definition set_tokens (v : list string) (this : t) : t :=
  mk (tree this) (expression this) (variableMap this) (callback this)
     (operations this) (Some v) (_internationalFormat this).

(** *** The operation registry *)

Definition _initializeOperations (this : t) : t :=
  let operations : gmap string Operation.t := ∅ in
  let PLUS := "+" in
  let operations := <[PLUS := Operation.new PLUS false
    (λ values, Array_reduce (λ total value, js_add total value) values)]> operations in
  let MINUS := "-" in
  let operations := <[MINUS := Operation.new MINUS false
    (λ values, Array_reduce (λ total value, js_sub total value) values)]> operations in
  let MULTI := "*" in
  let operations := <[MULTI := Operation.new MULTI false
    (λ values, Array_reduce (λ product factor, js_mul product factor) values)]> operations in
  let DIVI := "/" in
  let operations := <[DIVI := Operation.new DIVI false
    (λ values, Array_forEach (λ quotient divisor, js_div quotient divisor) values)]> operations in
  let MODULO := "%" in
  let operations := <[MODULO := Operation.new DIVI false
    (λ values,
       let callback := λ previousRemainder divisor, js_rem previousRemainder divisor in
       (* an array has no method [forEeach] *)
       throw TypeError "values.forEeach is not a function")]> operations in
  set_operations operations this.

Definition connectedCallback (this : t) : t := _initializeOperations this.

(** *** Character tests *)

(** [/\d/] *)
Definition digit : Ascii.ascii → bool := in_range 48 57.

(** [/[a-zA-z]/]: the second range runs from [A] to lower-case [z]. *)
Definition letter (c : Ascii.ascii) : bool := in_range 97 122 c || in_range 65 122 c.

Definition _isNumber (str : string) : bool := test_class digit str.
Definition _isLetter (str : string) : bool := test_class letter str.
Definition _isDecimalPoint (str : string) : bool := String.eqb str ".".
Definition _isComma (str : string) : bool := String.eqb str ",".
Definition _isLeftParen (str : string) : bool := String.eqb str "(".
Definition _isRightParen (str : string) : bool := String.eqb str ")".

(** [for (let operation of this.operations)] asks the value for its
    iterator.  Neither [undefined] nor a plain object has one. *)
Definition iterate (o : option (gmap string Operation.t)) : Run (list Operation.t) :=
  throw TypeError "this.operations is not iterable".

Definition _isOperation (this : t) (str : string) : Run bool :=
  operations ← iterate (operations this);
  mret (existsb (λ operation,
                   String.eqb str (Operation.name operation) && Operation.isFunction operation)
                operations).

(** *** The tokenizer *)

(** The three variables of the scan. *)
Record scan := mkScan {
  scan_tokens : list string;
  currentToken : string;
  previousChar : string
}.

(** [tokens.push(currentToken); currentToken = ''] *)
Definition flush (s : scan) : scan :=
  mkScan (scan_tokens s ++ [currentToken s]) "" (previousChar s).

(** [if (currentToken !== '') { tokens.push(currentToken); currentToken = '' }] *)
Definition flush_nonempty (s : scan) : scan :=
  if negb (String.eqb (currentToken s) "") then flush s else s.

(** [currentToken += char] *)
Definition extend (char : string) (s : scan) : scan :=
  mkScan (scan_tokens s) (currentToken s +:+ char) (previousChar s).

(** [tokens.push(char)] *)
Definition emit (char : string) (s : scan) : scan :=
  mkScan (scan_tokens s ++ [char]) (currentToken s) (previousChar s).

(** [previousChar = char], the last statement of a turn. *)
Definition remember (char : string) (s : scan) : scan :=
  mkScan (scan_tokens s) (currentToken s) char.

Section Tokenizer.

(** The method the scan reaches through [this._isOperation]. *)
Variable is_operation : string → Run bool.

(** One turn of the loop.  The comma branch leaves with [continue]
    and keeps [previousChar]. *)
Definition scan_char (char : string) (s : scan) : Run scan :=
  if _isNumber char then
    let s :=
      if negb (_isNumber (previousChar s)) && negb (_isDecimalPoint (previousChar s))
         && negb (String.eqb (currentToken s) "")
      then flush s else s in
    mret (remember char (extend char s))
  else if _isLetter char then
    let s :=
      if negb (_isLetter (previousChar s)) && negb (String.eqb (currentToken s) "")
      then flush s else s in
    mret (remember char (extend char s))
  else if _isComma char then
    mret s
  else if _isDecimalPoint char then
    mret (remember char (extend char s))
  else
    operation ← is_operation char;
    if operation : bool then
      mret (remember char (emit char (flush_nonempty s)))
    else if _isLeftParen char then
      mret (remember char (emit char (flush_nonempty s)))
    else
      console_log ("Unexpected character in expression: " +:+ char);;
      mret (remember char s).

(** The whole scan; what is left in [currentToken] at the end is not
    pushed. *)
Definition tokenize (expression : string) : Run (list string) :=
  s ← for_of scan_char (chars expression) (mkScan [] "" "");
  mret (scan_tokens s).

End Tokenizer.

Definition tokenizeExpression (this : t) (expression : string) : Run (list string) :=
  tokenize (_isOperation this) expression.

(** *** Preprocessing and [calculate] *)

Definition tab : string := String (Ascii.ascii_of_nat 9) EmptyString.
Definition newline : string := String (Ascii.ascii_of_nat 10) EmptyString.

(** [!expression instanceof String] parses as
    [(!expression) instanceof String]: the left operand is a boolean,
    and no primitive is an instance of [String]. *)
Definition boolean_instanceof_String (b : bool) : bool := false.

(** The last [replaceAll] is called with one argument: the missing
    replacement is [undefined], which is turned into text. *)
Definition _preprocessExpression (this : t) (expression : string) : Run string :=
  (if boolean_instanceof_String (String.eqb expression "")
   then throw ExpressionEvaluationError "Expression not instance of String."
   else mret tt);;
  let expression :=
    if default false (_internationalFormat this)
    then Utils.swapPeriodsAndCommas expression
    else Some expression in
  match expression with
  | None => throw TypeError "Cannot read properties of undefined (reading 'replaceAll')"
  | Some expression =>
      mret (replaceAll newline "undefined" (replaceAll tab "" (replaceAll " " "" expression)))
  end.

(** The class has [tokenizeExpression]; it has no property
    [_tokenizeExpression]. *)
Definition _tokenizeExpression : option (t → string → Run (list string)) := None.

(** [calculate(expression, variableMap=None, callback, internationalFormat=false)].
    The component after the call, and the run.  A missing
    [variableMap] evaluates the default [None], an identifier that is
    not declared.  Assignments made before an exception stay. *)
Definition calculate (this : t) (expression : string)
    (variableMap : option (gmap string JSValue)) (callback : Callback)
    (internationalFormat : bool) : t * Run unit :=
  match variableMap with
  | None => (this, throw ReferenceError "None is not defined")
  | Some variableMap =>
      let this := set__internationalFormat internationalFormat this in
      let preprocessed := _preprocessExpression this expression in
      match completion preprocessed with
      | Throw e => (this, mkRun (events preprocessed) (Throw e))
      | Normal expression =>
          let this := set_expression expression this in
          let this := set_variableMap variableMap this in
          let this := set_callback callback this in
          match _tokenizeExpression with
          | None =>
              (this, preprocessed;; throw TypeError "this._tokenizeExpression is not a function")
          | Some method =>
              let tokenized := method this expression in
              match completion tokenized with
              | Throw e => (this, preprocessed;; tokenized;; mret tt)
              | Normal tokens => (set_tokens tokens this, preprocessed;; tokenized;; mret tt)
              end
          end
      end
  end.

End XParser.

(** ** Building and walking a tree *)

Module Construction.

(** What the constructor is handed as [parent]: a node, [null], or a
    value that is neither. *)
Inductive parent_argument :=
  | ParentNode (a : Node.addr)
  | ParentNull
  | ParentOther.

(** The object under construction, as its fields have been assigned;
    [item] is [None] when it is [undefined]. *)
Record object := mkObject {
  parent : parent_argument;
  item : option Node.Item;
  children : list Node.addr;
  nullHandlingMode : Tree.mode
}.

(** [validate()].  The innermost test evaluates [List], an identifier
    that is not declared.  Every other path reaches the
    [console.log], whose argument is evaluated first and calls
    [JSON.serialize], a method [JSON] does not have. *)
Definition validate (this : object) : Run unit :=
  match parent this with
  | ParentNode _ | ParentNull =>
      match item this with
      | Some _ => throw ReferenceError "List is not defined"
      | None => mret tt
      end
  | ParentOther => mret tt
  end;;
  throw TypeError "JSON.serialize is not a function".

(** [new Node(parent, item, children, nullHandlingMode=Tree.NULL_AS_ZERO)];
    a mode that is not handed over is [None]. *)
Definition new_Node (parent : parent_argument) (item : option Node.Item)
    (children : list Node.addr) (nullHandlingMode : option Tree.mode) : Run object :=
  let this := mkObject parent item children
                       (default (Tree.Text Tree.NULL_AS_ZERO) nullHandlingMode) in
  validate this;;
  mret this.

(** [_createNode(parent, item, children)] of a tree in mode [mode]. *)
Definition _createNode (mode : Tree.mode) (parent : parent_argument)
    (item : option Node.Item) (children : list Node.addr) : Run object :=
  new_Node parent item children (Some mode).

(** [_createRoot(item)] *)
Definition _createRoot (mode : Tree.mode) (item : option Node.Item) : Run object :=
  _createNode mode ParentNull item [].

(** A tree object: its mode and its root. *)
Record tree := mkTree { tree_mode : Tree.mode; tree_root : object }.

(** [new Tree(item, nullHandlingMode=Tree.NULL_AS_ZERO)] *)
Definition new_Tree (item : option Node.Item) (nullHandlingMode : option Tree.mode)
    : Run tree :=
  let mode := default (Tree.Text Tree.NULL_AS_ZERO) nullHandlingMode in
  root ← _createRoot mode item;
  mret (mkTree mode root).

End Construction.

Module Walk.

(** What [forEach] hands to the function: the item of the node, or
    the node. *)
Inductive Param :=
  | ParamItem (i : Node.Item)
  | ParamNode (a : Node.addr).

(** [forEach(node, functionToPerformOnEach, providesItem)] once the
    defaults are filled in.  [depth] is the room left on the call
    stack.  [children] is an array here, never [null]. *)
Fixpoint forEach_from (h : Node.heap) (depth : nat) (node : Node.addr)
    (functionToPerformOnEach : Param → Run unit) (providesItem : bool) : Run unit :=
  match depth with
  | O => throw RangeError "Maximum call stack size exceeded"
  | S depth =>
      n ← Node.deref h node;
      let param := if providesItem then ParamItem (Node.item n) else ParamNode node in
      functionToPerformOnEach param;;
      let children := Node.children n in
      if Nat.eqb (length children) 0 then mret tt
      else for_of (λ child _,
                     forEach_from h depth child functionToPerformOnEach providesItem)
                  children tt
  end.

(** [forEach(node = this.root, functionToPerformOnEach, providesItem=true)] *)
Definition forEach (this : Tree.t) (h : Node.heap) (depth : nat)
    (node : option Node.addr) (functionToPerformOnEach : Param → Run unit)
    (providesItem : option bool) : Run unit :=
  forEach_from h depth (default (Tree.root this) node) functionToPerformOnEach
               (default true providesItem).

End Walk.

(** A finite tree of node addresses. *)
Inductive shape := Shape (a : Node.addr) (kids : list shape).

Definition top (t : shape) : Node.addr := match t with Shape a _ => a end.

Fixpoint preorder (t : shape) : list Node.addr :=
  match t with
  | Shape a kids => a :: flat_map preorder kids
  end.

Fixpoint height (t : shape) : nat :=
  match t with
  | Shape _ kids => S (fold_right Nat.max 0 (height <$> kids))
  end.

(** The store holds the tree: each node of the shape is in the store
    and its [children] are the tops of its subtrees, in order. *)
Fixpoint laid_out (h : Node.heap) (t : shape) : Prop :=
  match t with
  | Shape a kids =>
      (∃ n, h !! a = Some n ∧ Node.children n = top <$> kids)
      ∧ (fix each (l : list shape) : Prop :=
           match l with
           | [] => True
           | k :: l => laid_out h k ∧ each l
           end) kids
  end.

(** What [forEach] hands over at the node [a]. *)
Definition param_at (h : Node.heap) (providesItem : bool) (a : Node.addr) : Walk.Param :=
  if providesItem
  then Walk.ParamItem (from_option Node.item Node.ItemOther (h !! a))
  else Walk.ParamNode a.

(** ** Notions the properties are stated with *)

(** The characters the scan handles on its own: digits, letters, the
    comma and the decimal point. *)
Definition plain (char : string) : bool :=
  XParser._isNumber char || XParser._isLetter char
  || XParser._isComma char || XParser._isDecimalPoint char.

(** [char] is the name of a registered operation that is not a
    function. *)
Definition registered_symbol (this : XParser.t) (char : string) : bool :=
  match XParser.operations this with
  | None => false
  | Some operations =>
      existsb (λ entry, String.eqb char (Operation.name entry.2)
                        && negb (Operation.isFunction entry.2))
              (map_to_list operations)
  end.

Definition whitespace (char : string) : bool :=
  String.eqb char " " || String.eqb char XParser.tab || String.eqb char XParser.newline.

(** The characters the tokenizer is said to recognize. *)
Definition recognized (this : XParser.t) (char : string) : bool :=
  whitespace char || plain char || registered_symbol this char
  || XParser._isLeftParen char || XParser._isRightParen char.

(** A text with every comma turned into a period and every period
    into a comma, character by character. *)
Definition swap_ascii (c : Ascii.ascii) : Ascii.ascii :=
  if Ascii.eqb c "," then "."%char
  else if Ascii.eqb c "." then ","%char
  else c.

Definition periods_and_commas_swapped (str : string) : string :=
  String.string_of_list_ascii (swap_ascii <$> String.list_ascii_of_string str).

(** The operand list the null-as-zero mode is said to produce. *)
Definition nulls_replaced_by_zero (values : list JSValue) : list JSValue :=
  (λ value, if is_null value then JSNumber (of_Z 0) else value) <$> values.

(** The operand list the code produces in that mode. *)
Definition zero_before_each_null (values : list JSValue) : list JSValue :=
  values ≫= λ value, if is_null value then [JSNumber (of_Z 0); value] else [value].

Definition has_null (values : list JSValue) : bool := existsb is_null values.

(** A mode that cannot be turned into text, as a Symbol cannot. *)
Definition unprintable (m : Tree.mode) : Prop := ∃ json, m = Tree.NotText None json.

(** A Symbol held as a mode: no text, and left out by the serializer. *)
Definition symbol_mode : Tree.mode := Tree.NotText None None.

(** How a serialization may end: normally, with a TypeError, or with
    a RangeError. *)
Definition serializer_outcome (c : option ErrorClass) : Prop :=
  c = None ∨ c = Some TypeError ∨ c = Some RangeError.

(** A component whose registry has been initialized. *)
Definition connected : XParser.t := XParser.connectedCallback XParser.fresh.

(** A root with two leaves that point back at it: the tree of [A+B]
    with A = 2 and B = null, in the mode that throws on null. *)
Definition linked_tree : Node.heap :=
  <[0 := Node.mk None
           (Node.ItemOperation (Operation.new "+" false (λ values, mret JSUndefined)))
           [1; 2] JSUndefined Tree.THROW_ERROR_ON_NULL]>
  (<[1 := Node.mk (Some 0)
            (Node.ItemValue (Value.new (Value.Literal (JSNumber (of_Z 2))) None))
            [] JSUndefined Tree.THROW_ERROR_ON_NULL]>
  (<[2 := Node.mk (Some 0)
            (Node.ItemValue (Value.new (Value.Literal JSNull) None))
            [] JSUndefined Tree.THROW_ERROR_ON_NULL]> ∅)).

(** A tree that is one leaf holding the literal [value]. *)
Definition single_leaf (value : JSValue) (mode : Tree.mode) : Node.heap :=
  {[0 := Node.mk None (Node.ItemValue (Value.new (Value.Literal value) None))
                 [] JSUndefined mode]}.

(** The characters of a numeric literal: digits, the comma and the
    decimal point. *)
Definition numeric (char : string) : bool :=
  XParser._isNumber char || XParser._isComma char || XParser._isDecimalPoint char.

(** The scan of a numeric literal: nothing pushed so far, and the
    pending run is empty or was last extended by a digit or a period. *)
Definition numeric_run (s : XParser.scan) : Prop :=
  XParser.scan_tokens s = []
  ∧ (XParser.currentToken s = ""
     ∨ XParser._isNumber (XParser.previousChar s) = true
     ∨ XParser._isDecimalPoint (XParser.previousChar s) = true).

(** The texts of a list put end to end. *)
Definition join (l : list string) : string := fold_right String.append "" l.

(** The characters the scan keeps, in a run or as a token of their
    own, when the operator test answers as [operator] does: digits,
    letters, periods, operator symbols and the left parenthesis.
    Commas and every other character are dropped. *)
Definition kept (operator : string → bool) (char : string) : bool :=
  if XParser._isNumber char then true
  else if XParser._isLetter char then true
  else if XParser._isComma char then false
  else if XParser._isDecimalPoint char then true
  else operator char || XParser._isLeftParen char.

(** ** Runs *)

Lemma bind_normal {A B} (m : Run A) (k : A → Run B) a :
  completion m = Normal a →
  m ≫= k = mkRun (events m ++ events (k a)) (completion (k a)).
Proof. intros H. unfold mbind, Run_bind. by rewrite H. Qed.

Lemma bind_throw {A B} (m : Run A) (k : A → Run B) e :
  completion m = Throw e → m ≫= k = mkRun (events m) (Throw e).
Proof. intros H. unfold mbind, Run_bind. by rewrite H. Qed.

Lemma bind_ret {A B} (a : A) (k : A → Run B) : mret a ≫= k = k a.
Proof. unfold mbind, Run_bind, mret, Run_ret. simpl. by destruct (k a). Qed.

Lemma bind_raise {A B} c msg (k : A → Run B) : throw c msg ≫= k = throw c msg.
Proof. reflexivity. Qed.

(** ** utils.js *)

Lemma append_assoc (a b c : string) : (a +:+ b) +:+ c = a +:+ (b +:+ c).
Proof.
  induction a as [|x a IH]; [done|].
  change (String x ((a +:+ b) +:+ c) = String x (a +:+ (b +:+ c))). by rewrite IH.
Qed.

Lemma append_empty (a : string) : a +:+ "" = a.
Proof.
  induction a as [|x a IH]; [done|].
  change (String x (a +:+ "") = String x a). by rewrite IH.
Qed.

Lemma swapped_char (c : Ascii.ascii) :
  Utils.swapped (String c EmptyString) = String (swap_ascii c) EmptyString.
Proof.
  unfold Utils.swapped, swap_ascii. simpl.
  destruct (Ascii.eqb c ","); [done|]. by destruct (Ascii.eqb c ".").
Qed.

Lemma swap_loop (str acc : string) :
  fold_left (λ result char, result +:+ Utils.swapped char) (chars str) acc
  = acc +:+ periods_and_commas_swapped str.
Proof.
  revert acc. induction str as [|c str IH]; intros acc.
  - change (acc = acc +:+ ""). by rewrite append_empty.
  - change (chars (String c str)) with (String c EmptyString :: chars str).
    change (fold_left (λ result char, result +:+ Utils.swapped char) (chars str)
              (acc +:+ Utils.swapped (String c EmptyString))
            = acc +:+ (String (swap_ascii c) EmptyString +:+ periods_and_commas_swapped str)).
    by rewrite IH, swapped_char, append_assoc.
Qed.

(** The loop of [swapPeriodsAndCommas] leaves the swapped text in
    [result]. *)
Lemma swap_result_is_swapped (str : string) :
  Utils.swapPeriodsAndCommas_result str = periods_and_commas_swapped str.
Proof. unfold Utils.swapPeriodsAndCommas_result. by rewrite swap_loop. Qed.

Example swap_result_example : Utils.swapPeriodsAndCommas_result "1,000.5" = "1.000,5".
Proof. reflexivity. Qed.

(** C9.  [swapPeriodsAndCommas] does not return the swapped text: for
    every input the call yields [undefined], although the local
    [result] holds the text with commas and periods exchanged. *)
Theorem swapPeriodsAndCommas_yields_undefined (str : string) :
  Utils.swapPeriodsAndCommas str = None.
Proof. reflexivity. Qed.

(** ** The operation registry *)

Lemma registry_after_connect (this : XParser.t) :
  ∃ operations, XParser.operations (XParser.connectedCallback this) = Some operations
    ∧ dom operations = ({["+"; "-"; "*"; "/"; "%"]} : gset string).
Proof.
  eexists. split; [reflexivity|].
  rewrite !dom_insert_L, dom_empty_L. set_solver.
Qed.

Lemma new_operation_has_no_execute name isFunction executeFunction :
  Operation.execute (Operation.new name isFunction executeFunction) = None.
Proof. reflexivity. Qed.

Lemma call_without_execute operation values :
  Operation.execute operation = None →
  Operation.call_execute operation values = throw TypeError "execute is not a function".
Proof. intros H. unfold Operation.call_execute. by rewrite H. Qed.

(** C2.  The registry built by [_initializeOperations] does not hold
    what is claimed: the entry under [%] is named [/], and the
    [execute] of every entry is [undefined], so that calling it on any
    list of values raises a TypeError instead of reducing the list. *)
Theorem builtin_operations_do_not_reduce (this : XParser.t) :
  ∃ operations,
    XParser.operations (XParser.connectedCallback this) = Some operations
    ∧ Operation.name <$> operations !! "%" = Some "/"
    ∧ ∀ symbol operation values,
        operations !! symbol = Some operation →
        Operation.isFunction operation = false
        ∧ raised (Operation.call_execute operation values) = Some TypeError.
Proof.
  eexists. split; [reflexivity|]. split; [reflexivity|].
  intros symbol operation values H.
  repeat (apply lookup_insert_Some in H as [[_ <-]|[_ H]]; [by split|]).
  by rewrite lookup_empty in H.
Qed.

(** C2, at one symbol and one operand list. *)
Lemma builtin_operations_do_not_reduce_at_plus :
  ∃ operation,
    (XParser.operations connected ≫= (.!! "+")) = Some operation
    ∧ raised (Operation.call_execute operation [JSNumber (of_Z 2); JSNumber (of_Z 3)])
      = Some TypeError.
Proof.
  destruct (builtin_operations_do_not_reduce XParser.fresh) as (ops & Hops & _ & H).
  unfold connected. rewrite Hops. simpl.
  destruct (ops !! "+") as [op|] eqn:E.
  - exists op. split; [done|]. by apply (H "+").
  - exfalso. injection Hops as <-. vm_compute in E. discriminate.
Defined.

Example plus_is_registered : registered_symbol connected "+" = true.
Proof. vm_compute. reflexivity. Qed.

(** The test inside the loop of [_isOperation] asks for [isFunction],
    not for its negation: over operations that are not functions it
    selects nothing. *)
Lemma operation_test_selects_functions (operations : list Operation.t) (str : string) :
  Forall (λ operation, Operation.isFunction operation = false) operations →
  existsb (λ operation,
             String.eqb str (Operation.name operation) && Operation.isFunction operation)
          operations = false.
Proof.
  induction 1 as [|operation rest Hop _ IH]; [done|].
  simpl. rewrite Hop, IH. by rewrite andb_false_r.
Qed.

(** C8.  [_isOperation] does not answer: whatever the component and the
    character, also the name of a registered operation that is not a
    function, the loop over the plain object [this.operations] raises a
    TypeError before any comparison is made. *)
Theorem isOperation_raises_TypeError (this : XParser.t) (str : string) :
  XParser._isOperation this str = throw TypeError "this.operations is not iterable".
Proof. reflexivity. Qed.

(** ** The tokenizer *)

Section Scan.

Variable is_operation : string → Run bool.

Lemma scan_plain char s :
  plain char = true → ∃ s', XParser.scan_char is_operation char s = mret s'.
Proof.
  unfold plain, XParser.scan_char. intros H.
  destruct (XParser._isNumber char); [eauto|].
  destruct (XParser._isLetter char); [eauto|].
  destruct (XParser._isComma char); [eauto|].
  destruct (XParser._isDecimalPoint char); [eauto|]. done.
Qed.

Lemma scan_other char s :
  plain char = false →
  XParser.scan_char is_operation char s =
    operation ← is_operation char;
    if operation : bool then
      mret (XParser.remember char (XParser.emit char (XParser.flush_nonempty s)))
    else if XParser._isLeftParen char then
      mret (XParser.remember char (XParser.emit char (XParser.flush_nonempty s)))
    else
      console_log ("Unexpected character in expression: " +:+ char);;
      mret (XParser.remember char s).
Proof.
  unfold plain, XParser.scan_char. intros H.
  destruct (XParser._isNumber char); [done|].
  destruct (XParser._isLetter char); [done|].
  destruct (XParser._isComma char); [done|].
  destruct (XParser._isDecimalPoint char); done.
Qed.

Lemma scan_all_plain l s :
  forallb plain l = true →
  ∃ s', for_of (XParser.scan_char is_operation) l s = mret s'.
Proof.
  revert s. induction l as [|char l IH]; intros s H; simpl in *; [eauto|].
  apply andb_prop in H as [Hc Hl].
  destruct (scan_plain char s Hc) as [s1 ->]. rewrite bind_ret. by apply IH.
Qed.

Lemma scan_raises l s e :
  (∀ char, is_operation char = mkRun [] (Throw e)) →
  forallb plain l = false →
  for_of (XParser.scan_char is_operation) l s = mkRun [] (Throw e).
Proof.
  intros Hop. revert s. induction l as [|char l IH]; intros s H; simpl in *; [done|].
  destruct (plain char) eqn:Hc; simpl in H.
  - destruct (scan_plain char s Hc) as [s1 ->]. rewrite bind_ret. by apply IH.
  - rewrite (scan_other char s Hc), Hop. reflexivity.
Qed.

Lemma tokenize_all_plain expression :
  forallb plain (chars expression) = true →
  ∃ tokens, XParser.tokenize is_operation expression = mret tokens.
Proof.
  intros H. unfold XParser.tokenize.
  destruct (scan_all_plain (chars expression) (XParser.mkScan [] "" "") H) as [s ->].
  rewrite bind_ret. eauto.
Qed.

Lemma tokenize_raises expression e :
  (∀ char, is_operation char = mkRun [] (Throw e)) →
  forallb plain (chars expression) = false →
  XParser.tokenize is_operation expression = mkRun [] (Throw e).
Proof.
  intros Hop H. unfold XParser.tokenize.
  by rewrite (scan_raises _ _ e Hop H).
Qed.

(** Were the operator test to answer [false] on [)], the scan would
    report the character on the console and push nothing: no branch
    of the loop calls [_isRightParen]. *)
Lemma right_paren_has_no_branch s :
  is_operation ")" = mret false →
  XParser.scan_char is_operation ")" s =
    mkRun [ConsoleLog "Unexpected character in expression: )"]
          (Normal (XParser.remember ")" s)).
Proof.
  intros H. rewrite scan_other by reflexivity. rewrite H, bind_ret. reflexivity.
Qed.

(** While a left parenthesis, under the same test, is pushed after
    the pending run. *)
Lemma left_paren_is_pushed s :
  is_operation "(" = mret false →
  XParser.scan_char is_operation "(" s =
    mret (XParser.remember "(" (XParser.emit "(" (XParser.flush_nonempty s))).
Proof.
  intros H. rewrite scan_other by reflexivity. rewrite H, bind_ret. reflexivity.
Qed.

End Scan.

Lemma not_all_plain (l : list string) (char : string) :
  char ∈ l → plain char = false → forallb plain l = false.
Proof.
  intros Hin Hc. induction Hin as [char l|char other l _ IH]; simpl.
  - by rewrite Hc.
  - rewrite IH by done. apply andb_false_r.
Qed.

(** C3.  A right parenthesis is not emitted as a token: every input
    that contains one makes [tokenizeExpression] end with a TypeError,
    raised by the operator test the scan falls into at the first
    character that is not a digit, a letter, a comma or a period. *)
Theorem right_paren_aborts_tokenization (this : XParser.t) (expression : string) :
  ")" ∈ chars expression →
  XParser.tokenizeExpression this expression
  = throw TypeError "this.operations is not iterable".
Proof.
  intros H. unfold XParser.tokenizeExpression.
  apply tokenize_raises; [intros char; reflexivity|].
  by apply (not_all_plain _ ")").
Qed.

Lemma right_paren_aborts_tokenization_example :
  ")" ∈ chars "1)"
  ∧ XParser.tokenizeExpression connected "1)"
    = throw TypeError "this.operations is not iterable".
Proof.
  assert (H : ")" ∈ chars "1)") by (vm_compute; set_solver).
  split; [exact H|]. exact (right_paren_aborts_tokenization connected "1)" H).
Defined.

(** C4, as stated, fails on the code: [#] is not a recognized
    character and tokenizing it ends with a TypeError, not a LexError;
    [2+3] is made of recognized characters only and tokenizing it
    fails all the same. *)
Lemma tokenizer_LexError_counterexample :
  recognized connected "#" = false
  ∧ raised (XParser.tokenizeExpression connected "#") = Some TypeError
  ∧ forallb (recognized connected) (chars "2+3") = true
  ∧ raised (XParser.tokenizeExpression connected "2+3") = Some TypeError.
Proof. vm_compute. done. Qed.

(** C4, amended.  Tokenization never fails with a LexError, and on an
    input made only of digits, letters, commas and periods it returns
    a token sequence without failing. *)
Theorem tokenizer_never_raises_LexError (this : XParser.t) (expression : string) :
  raised (XParser.tokenizeExpression this expression) ≠ Some LexError
  ∧ (forallb plain (chars expression) = true →
     ∃ tokens, XParser.tokenizeExpression this expression = mret tokens).
Proof.
  split.
  - unfold XParser.tokenizeExpression.
    destruct (forallb plain (chars expression)) eqn:H.
    + by destruct (tokenize_all_plain (XParser._isOperation this) expression H) as [? ->].
    + by rewrite (tokenize_raises (XParser._isOperation this) expression
                    (mkError TypeError "this.operations is not iterable" None)).
  - apply tokenize_all_plain.
Qed.

Lemma tokenizer_never_raises_LexError_example :
  forallb plain (chars "12a,b.3") = true
  ∧ ∃ tokens, XParser.tokenizeExpression connected "12a,b.3" = mret tokens.
Proof.
  assert (H : forallb plain (chars "12a,b.3") = true) by reflexivity.
  split; [exact H|].
  exact (proj2 (tokenizer_never_raises_LexError connected "12a,b.3") H).
Defined.

(** ** [calculate] *)

Lemma preprocess_plain_format (this : XParser.t) (expression : string) :
  XParser._preprocessExpression (XParser.set__internationalFormat false this) expression
  = mret (replaceAll XParser.newline "undefined"
            (replaceAll XParser.tab "" (replaceAll " " "" expression))).
Proof. reflexivity. Qed.

Lemma preprocess_international_format (this : XParser.t) (expression : string) :
  raised (XParser._preprocessExpression
            (XParser.set__internationalFormat true this) expression) = Some TypeError.
Proof. reflexivity. Qed.




(** ** [Node.execute] *)

Lemma deref_some (h : Node.heap) (a : Node.addr) (node : Node.t) :
  h !! a = Some node → Node.deref h a = mret node.
Proof. intros H. unfold Node.deref. by rewrite H. Qed.

Lemma childless_is_not_a_leaf_of_values (h : Node.heap) (this : Node.addr) (node : Node.t) :
  h !! this = Some node → Node.children node = [] →
  Node._childrenAreAllValuesOrNoChildren h this = mret false.
Proof.
  intros H Hc. unfold Node._childrenAreAllValuesOrNoChildren.
  rewrite (deref_some _ _ _ H), bind_ret, Hc. reflexivity.
Qed.

(** C5, as stated, fails on the code: the tree that is one leaf holding
    the literal 5 evaluates to [undefined], not to 5. *)
Lemma single_leaf_counterexample :
  Node.execute (single_leaf (JSNumber (of_Z 5)) Tree.NULL_AS_ZERO) 1 0 = mret JSUndefined
  ∧ completion (Node.execute (single_leaf (JSNumber (of_Z 5)) Tree.NULL_AS_ZERO) 1 0)
    ≠ Normal (JSNumber (of_Z 5)).
Proof. split; [reflexivity|]. vm_compute. discriminate. Qed.

(** C5, amended.  For every tree that is a single leaf node whose item
    is a Value, evaluation completes with [undefined] as its result,
    whatever room the call stack has, and produces no event: it
    invokes the [execute] of no Operation. *)
Theorem single_leaf_evaluates_to_undefined
    (h : Node.heap) (depth : nat) (this : Node.addr) (node : Node.t) (v : Value.t) :
  h !! this = Some node →
  Node.item node = Node.ItemValue v →
  Node.children node = [] →
  Node.execute h (S depth) this = mkRun [] (Normal JSUndefined).
Proof.
  intros H Hi Hc. simpl.
  rewrite (deref_some _ _ _ H), bind_ret.
  rewrite (childless_is_not_a_leaf_of_values _ _ _ H Hc), bind_ret.
  rewrite Hc. reflexivity.
Qed.

Lemma single_leaf_evaluates_to_undefined_example :
  Node.execute (single_leaf JSNull Tree.DROP_NULL) 3 0 = mkRun [] (Normal JSUndefined).
Proof.
  apply (single_leaf_evaluates_to_undefined _ 2 0
           (Node.mk None (Node.ItemValue (Value.new (Value.Literal JSNull) None))
                    [] JSUndefined Tree.DROP_NULL)
           (Value.new (Value.Literal JSNull) None)); reflexivity.
Defined.

(** A node whose children are all values never reaches its item: the
    operand list comes back [undefined] and cannot be iterated. *)
Example linked_tree_execute :
  raised (Node.execute linked_tree 5 0) = Some TypeError.
Proof. vm_compute. reflexivity. Qed.

(** ** [validateValues] *)

Section Validate.

Variables (h : Node.heap) (this : Node.addr).

Let zero : JSValue := JSNumber (of_Z 0).

Lemma for_of_cons {A S} (body : A → S → Run S) x l s :
  for_of body (x :: l) s = body x s ≫= for_of body l.
Proof. reflexivity. Qed.

Lemma validate_other mode value validated :
  is_null value = false →
  Node.validate_value h this mode value validated = mret (validated ++ [value]).
Proof. intros H. unfold Node.validate_value. by rewrite H. Qed.

Lemma validate_null_as_zero value validated :
  is_null value = true →
  Node.validate_value h this Tree.NULL_AS_ZERO value validated
  = mret (validated ++ [zero; value]).
Proof.
  intros H. unfold Node.validate_value, Node.push. rewrite H. simpl.
  by rewrite <- app_assoc.
Qed.

Lemma validate_drop_null value validated :
  is_null value = true →
  Node.validate_value h this Tree.DROP_NULL value validated = mret validated.
Proof. intros H. unfold Node.validate_value. by rewrite H. Qed.

Lemma validate_throw_mode value validated :
  is_null value = true →
  Node.validate_value h this Tree.THROW_ERROR_ON_NULL value validated
  = (json ← Node.JSON_stringify h this;
     throw_appending NullValueError
       "Value was null. Current Node being evaluated when null:" json).
Proof. intros H. unfold Node.validate_value. by rewrite H. Qed.

Lemma equals_other (mode : Tree.mode) (constant : string) :
  mode ≠ constant → Tree.equals mode constant = false.
Proof.
  destruct mode as [s|text json]; [|done]. intros H. apply String.eqb_neq. congruence.
Qed.

Lemma validate_unknown_mode (mode : Tree.mode) text value validated :
  mode ≠ Tree.DROP_NULL → mode ≠ Tree.NULL_AS_ZERO → mode ≠ Tree.THROW_ERROR_ON_NULL →
  Tree.to_text mode = mret text →
  is_null value = true →
  Node.validate_value h this mode value validated
  = mkRun [ConsoleLog ("WARNING: Invalid NullHandlingMode given: " +:+ text
                       +:+ ". Falling back to NULL_AS_ZERO.")]
          (Normal (validated ++ [zero; value])).
Proof.
  intros Hd Hz Ht Htext H. apply equals_other in Hd, Hz, Ht.
  unfold Node.validate_value, Node.push. rewrite H, Hd, Hz, Ht, Htext, bind_ret.
  unfold mbind, Run_bind. simpl. by rewrite <- app_assoc.
Qed.

Lemma validate_unprintable_mode json value validated :
  is_null value = true →
  Node.validate_value h this (Tree.NotText None json) value validated
  = throw TypeError "Cannot convert a Symbol value to a string".
Proof. intros H. unfold Node.validate_value. by rewrite H. Qed.

Lemma validate_loop_null_as_zero values validated :
  for_of (Node.validate_value h this Tree.NULL_AS_ZERO) values validated
  = mret (validated ++ zero_before_each_null values).
Proof.
  revert validated. induction values as [|value values IH]; intros validated.
  - simpl. by rewrite app_nil_r.
  - rewrite for_of_cons. destruct (is_null value) eqn:E.
    + rewrite validate_null_as_zero, bind_ret, IH by done.
      simpl. rewrite E. by rewrite <- app_assoc.
    + rewrite validate_other, bind_ret, IH by done.
      simpl. rewrite E. by rewrite <- app_assoc.
Qed.

Lemma validate_loop_drop_null values validated :
  for_of (Node.validate_value h this Tree.DROP_NULL) values validated
  = mret (validated ++ filter (λ value, is_null value = false) values).
Proof.
  revert validated. induction values as [|value values IH]; intros validated.
  - simpl. by rewrite app_nil_r.
  - rewrite for_of_cons. destruct (is_null value) eqn:E.
    + rewrite validate_drop_null, bind_ret, IH by done.
      rewrite filter_cons_False by (rewrite E; done). done.
    + rewrite validate_other, bind_ret, IH by done.
      rewrite filter_cons_True by done. by rewrite <- app_assoc.
Qed.

Lemma validate_loop_throw_mode values validated :
  for_of (Node.validate_value h this Tree.THROW_ERROR_ON_NULL) values validated
  = if has_null values
    then (json ← Node.JSON_stringify h this;
          throw_appending NullValueError
            "Value was null. Current Node being evaluated when null:" json)
    else mret (validated ++ values).
Proof.
  revert validated. induction values as [|value values IH]; intros validated.
  - simpl. by rewrite app_nil_r.
  - rewrite for_of_cons. unfold has_null. simpl. destruct (is_null value) eqn:E; simpl.
    + rewrite validate_throw_mode by done.
      unfold mbind, Run_bind. destruct (completion (Node.JSON_stringify h this)); reflexivity.
    + rewrite validate_other, bind_ret, IH by done.
      unfold has_null. by rewrite <- app_assoc.
Qed.

Lemma validate_loop_unknown_mode (mode : Tree.mode) text values validated :
  mode ≠ Tree.DROP_NULL → mode ≠ Tree.NULL_AS_ZERO → mode ≠ Tree.THROW_ERROR_ON_NULL →
  Tree.to_text mode = mret text →
  completion (for_of (Node.validate_value h this mode) values validated)
  = Normal (validated ++ zero_before_each_null values).
Proof.
  intros Hd Hz Ht Htext.
  revert validated. induction values as [|value values IH]; intros validated.
  - simpl. by rewrite app_nil_r.
  - rewrite for_of_cons. destruct (is_null value) eqn:E.
    + rewrite (validate_unknown_mode mode text) by done.
      erewrite bind_normal by reflexivity.
      simpl. rewrite IH, E. by rewrite <- app_assoc.
    + rewrite validate_other, bind_ret, IH by done.
      simpl. rewrite E. by rewrite <- app_assoc.
Qed.

Lemma validate_loop_unprintable_mode json values validated :
  for_of (Node.validate_value h this (Tree.NotText None json)) values validated
  = if has_null values
    then throw TypeError "Cannot convert a Symbol value to a string"
    else mret (validated ++ values).
Proof.
  revert validated. induction values as [|value values IH]; intros validated.
  - simpl. by rewrite app_nil_r.
  - rewrite for_of_cons. unfold has_null. simpl. destruct (is_null value) eqn:E; simpl.
    + by rewrite validate_unprintable_mode.
    + rewrite validate_other, bind_ret, IH by done.
      unfold has_null. by rewrite <- app_assoc.
Qed.

Lemma validate_loop_without_null (mode : Tree.mode) values validated :
  has_null values = false →
  for_of (Node.validate_value h this mode) values validated
  = mret (validated ++ values).
Proof.
  unfold has_null. revert validated.
  induction values as [|value values IH]; intros validated H.
  - simpl. by rewrite app_nil_r.
  - simpl in H. apply orb_false_elim in H as [Hv Hr].
    rewrite for_of_cons, validate_other, bind_ret, IH by done.
    by rewrite <- app_assoc.
Qed.

End Validate.

Lemma validateValues_loop (h : Node.heap) (this : Node.addr) (node : Node.t) values :
  h !! this = Some node →
  Node.validateValues h this (Some values)
  = for_of (Node.validate_value h this (Node.nullHandlingMode node)) values [].
Proof.
  intros H. unfold Node.validateValues. by rewrite (deref_some _ _ _ H), bind_ret.
Qed.

(** *** The serializer *)

Lemma raised_bind {A B} (m : Run A) (k : A → Run B) :
  raised (m ≫= k)
  = match completion m with
    | Normal a => raised (k a)
    | Throw e => Some (error_class e)
    end.
Proof. unfold raised, mbind, Run_bind. by destruct (completion m). Qed.

Section Closed.

(** A set of outcomes that contains normal completion. *)
Variable P : option ErrorClass → Prop.
Hypothesis P_normal : P None.

Lemma raised_bind_closed {A B} (m : Run A) (k : A → Run B) :
  P (raised m) → (∀ a, P (raised (k a))) → P (raised (m ≫= k)).
Proof.
  intros Hm Hk. rewrite raised_bind. unfold raised in Hm.
  destruct (completion m); [apply Hk | exact Hm].
Qed.

Lemma raised_for_of_closed {A S} (body : A → S → Run S) l s :
  (∀ x s, x ∈ l → P (raised (body x s))) → P (raised (for_of body l s)).
Proof.
  revert s. induction l as [|x l IH]; intros s H; simpl; [exact P_normal|].
  apply raised_bind_closed.
  - apply H. left.
  - intros s'. apply IH. intros y s'' Hy. apply H. by right.
Qed.

Lemma raised_deref_closed (h : Node.heap) a : P (Some TypeError) → P (raised (Node.deref h a)).
Proof. intros H. unfold Node.deref. by destruct (h !! a). Qed.

End Closed.

(** The serializer raises nothing but a TypeError or a RangeError. *)
Lemma JSON_serialize_raises (h : Node.heap) budget stack a :
  serializer_outcome (raised (Node.JSON_serialize h budget stack a)).
Proof.
  revert stack a. induction budget as [|budget IH]; intros stack a.
  - right; right; reflexivity.
  - cbn [Node.JSON_serialize]. destruct (bool_decide (a ∈ stack)).
    + right; left; reflexivity.
    + apply raised_bind_closed.
      * apply raised_deref_closed; [by left | right; by left].
      * intros node. apply raised_bind_closed.
        -- destruct (Node.parent node); [apply IH | by left].
        -- intros parent. apply raised_bind_closed; [|by left].
           apply raised_for_of_closed; [by left|]. intros child elements _.
           apply raised_bind_closed; [apply IH | by left].
Qed.

Lemma stack_fits_in_heap (h : Node.heap) (stack : list Node.addr) :
  NoDup stack → (∀ x, x ∈ stack → is_Some (h !! x)) → (length stack ≤ size h)%nat.
Proof.
  intros Hnd Hin.
  rewrite <- (size_list_to_set (C := gset Node.addr) stack Hnd), <- size_dom.
  apply subseteq_size. intros x Hx.
  apply elem_of_list_to_set in Hx. apply elem_of_dom. by apply Hin.
Qed.

(** With one unit of budget per object and one to spare, the walk
    never runs out of budget. *)
Lemma JSON_serialize_within_budget (h : Node.heap) budget stack a :
  NoDup stack → (∀ x, x ∈ stack → is_Some (h !! x)) →
  (size h < budget + length stack)%nat →
  raised (Node.JSON_serialize h budget stack a) ≠ Some RangeError.
Proof.
  revert stack a. induction budget as [|budget IH]; intros stack a Hnd Hin Hlt.
  - pose proof (stack_fits_in_heap h stack Hnd Hin). simpl in Hlt. lia.
  - cbn [Node.JSON_serialize]. destruct (bool_decide (a ∈ stack)) eqn:Ha; [done|].
    apply bool_decide_eq_false in Ha.
    unfold Node.deref. destruct (h !! a) as [node|] eqn:E; [|done].
    rewrite bind_ret.
    assert (Hnd' : NoDup (a :: stack)) by (by constructor).
    assert (Hin' : ∀ x, x ∈ a :: stack → is_Some (h !! x)).
    { intros x [->|Hx]%elem_of_cons; [by rewrite E | by apply Hin]. }
    assert (Hlt' : (size h < budget + length (a :: stack))%nat) by (simpl; lia).
    apply (raised_bind_closed (λ c, c ≠ Some RangeError)).
    + destruct (Node.parent node); [by apply IH | done].
    + intros parent. apply (raised_bind_closed (λ c, c ≠ Some RangeError)); [|done].
      apply (raised_for_of_closed (λ c, c ≠ Some RangeError)); [done|].
      intros child elements _.
      apply (raised_bind_closed (λ c, c ≠ Some RangeError)); [by apply IH | done].
Qed.

(** [JSON.stringify(node)] completes, or raises a TypeError. *)
Lemma JSON_stringify_raises (h : Node.heap) (a : Node.addr) :
  raised (Node.JSON_stringify h a) = None
  ∨ raised (Node.JSON_stringify h a) = Some TypeError.
Proof.
  pose proof (JSON_serialize_raises h (S (size h)) [] a) as H.
  pose proof (JSON_serialize_within_budget h (S (size h)) [] a) as H'.
  unfold Node.JSON_stringify.
  destruct H as [H|[H|H]]; [by left | by right |].
  exfalso. apply H'; [constructor | by intros x ?%elem_of_nil | simpl; lia | done].
Qed.

(** *** The modes *)

Lemma null_as_zero_validation
    (h : Node.heap) (this : Node.addr) (node : Node.t) (values : list JSValue) :
  h !! this = Some node →
  Node.nullHandlingMode node = Tree.NULL_AS_ZERO →
  Node.validateValues h this (Some values) = mret (zero_before_each_null values).
Proof.
  intros H Hm. rewrite (validateValues_loop _ _ _ _ H), Hm.
  apply validate_loop_null_as_zero.
Qed.

Lemma zero_before_each_null_length (values : list JSValue) :
  length (zero_before_each_null values)
  = (length values + length (filter (λ value, is_null value = true) values))%nat.
Proof.
  induction values as [|value values IH]; [done|].
  change (zero_before_each_null (value :: values))
    with ((if is_null value then [JSNumber (of_Z 0); value] else [value])
          ++ zero_before_each_null values).
  rewrite length_app, IH. destruct (is_null value) eqn:E.
  - rewrite filter_cons_True by done. simpl. lia.
  - rewrite filter_cons_False by (rewrite E; done). simpl. lia.
Qed.

(** C6.  Under [NULL_AS_ZERO] a null operand is not replaced: the loop
    pushes a 0 and then pushes the null itself, so that for every
    operand list the output holds, in order, every operand unchanged
    with a 0 in front of each null, and is longer than the input by
    the number of nulls. *)
Theorem null_as_zero_keeps_each_null
    (h : Node.heap) (this : Node.addr) (node : Node.t) (values : list JSValue) :
  h !! this = Some node →
  Node.nullHandlingMode node = Tree.NULL_AS_ZERO →
  Node.validateValues h this (Some values) = mret (zero_before_each_null values)
  ∧ length (zero_before_each_null values)
    = (length values + length (filter (λ value, is_null value = true) values))%nat.
Proof.
  intros H Hm. split.
  - by apply (null_as_zero_validation _ _ node).
  - apply zero_before_each_null_length.
Qed.

Lemma null_as_zero_keeps_each_null_example :
  Node.validateValues (single_leaf JSNull Tree.NULL_AS_ZERO) 0 (Some [JSNull])
  = mret [JSNumber (of_Z 0); JSNull].
Proof.
  apply (proj1 (null_as_zero_keeps_each_null (single_leaf JSNull Tree.NULL_AS_ZERO) 0
           (Node.mk None (Node.ItemValue (Value.new (Value.Literal JSNull) None))
                    [] JSUndefined Tree.NULL_AS_ZERO) [JSNull] eq_refl eq_refl)).
Defined.

Example null_as_zero_expected : nulls_replaced_by_zero [JSNull] = [JSNumber (of_Z 0)].
Proof. reflexivity. Qed.

Lemma drop_null_drops_each_null
    (h : Node.heap) (this : Node.addr) (node : Node.t) (values : list JSValue) :
  h !! this = Some node →
  Node.nullHandlingMode node = Tree.DROP_NULL →
  Node.validateValues h this (Some values)
  = mret (filter (λ value, is_null value = false) values).
Proof.
  intros H Hm. rewrite (validateValues_loop _ _ _ _ H), Hm.
  apply validate_loop_drop_null.
Qed.

Lemma throw_mode_validation
    (h : Node.heap) (this : Node.addr) (node : Node.t) (values : list JSValue) :
  h !! this = Some node →
  Node.nullHandlingMode node = Tree.THROW_ERROR_ON_NULL →
  Node.validateValues h this (Some values)
  = if has_null values
    then (json ← Node.JSON_stringify h this;
          throw_appending NullValueError
            "Value was null. Current Node being evaluated when null:" json)
    else mret values.
Proof.
  intros H Hm. rewrite (validateValues_loop _ _ _ _ H), Hm.
  apply validate_loop_throw_mode.
Qed.

Lemma mode_equal_or_not (mode : Tree.mode) (constant : string) :
  mode = constant ∨ mode ≠ constant.
Proof.
  destruct mode as [s|text json]; [|by right].
  destruct (String.eqb_spec s constant) as [->|Hne]; [by left|].
  right. congruence.
Qed.

Lemma mode_text_or_not (mode : Tree.mode) :
  unprintable mode ∨ ∃ text, Tree.to_text mode = mret text.
Proof.
  destruct mode as [s|[text|] json]; [right; by eexists | right; by eexists |].
  left. by exists json.
Qed.

Lemma unknown_mode_validation
    (h : Node.heap) (this : Node.addr) (node : Node.t) (values : list JSValue) :
  h !! this = Some node →
  Node.nullHandlingMode node ≠ Tree.DROP_NULL →
  Node.nullHandlingMode node ≠ Tree.NULL_AS_ZERO →
  Node.nullHandlingMode node ≠ Tree.THROW_ERROR_ON_NULL →
  ¬ unprintable (Node.nullHandlingMode node) →
  completion (Node.validateValues h this (Some values))
  = Normal (zero_before_each_null values).
Proof.
  intros H Hd Hz Ht Hp. rewrite (validateValues_loop _ _ _ _ H).
  destruct (mode_text_or_not (Node.nullHandlingMode node)) as [?|[text Htext]]; [done|].
  by apply (validate_loop_unknown_mode h this _ text values []).
Qed.

Lemma unprintable_mode_validation
    (h : Node.heap) (this : Node.addr) (node : Node.t) (values : list JSValue) :
  h !! this = Some node →
  unprintable (Node.nullHandlingMode node) →
  Node.validateValues h this (Some values)
  = if has_null values
    then throw TypeError "Cannot convert a Symbol value to a string"
    else mret values.
Proof.
  intros H [json Hm]. rewrite (validateValues_loop _ _ _ _ H), Hm.
  apply validate_loop_unprintable_mode.
Qed.

(** Validation fails exactly on a list with a null, in the throwing
    mode or in a mode that cannot be turned into text. *)
Lemma validateValues_raises_iff
    (h : Node.heap) (this : Node.addr) (node : Node.t) (values : list JSValue) :
  h !! this = Some node →
  raised (Node.validateValues h this (Some values)) ≠ None
  ↔ has_null values = true
    ∧ (Node.nullHandlingMode node = Tree.THROW_ERROR_ON_NULL
       ∨ unprintable (Node.nullHandlingMode node)).
Proof.
  intros H.
  destruct (mode_equal_or_not (Node.nullHandlingMode node) Tree.THROW_ERROR_ON_NULL)
    as [Ht|Ht].
  { rewrite (throw_mode_validation _ _ _ _ H Ht).
    destruct (has_null values).
    - split; [by intros _; split; [|left]|]. intros _. rewrite raised_bind.
      by destruct (completion (Node.JSON_stringify h this)).
    - split; [done | by intros [? _]]. }
  destruct (mode_text_or_not (Node.nullHandlingMode node)) as [Hu|[text Htext]].
  { rewrite (unprintable_mode_validation _ _ _ _ H Hu).
    destruct (has_null values).
    - split; [by intros _; split; [|right] | done].
    - split; [done | by intros [? _]]. }
  assert (Hp : ¬ unprintable (Node.nullHandlingMode node)).
  { intros [json Hm]. rewrite Hm in Htext. discriminate. }
  split; [|by intros [_ [?|?]]]. intros Hr. exfalso. apply Hr.
  destruct (mode_equal_or_not (Node.nullHandlingMode node) Tree.NULL_AS_ZERO) as [Hz|Hz].
  { by rewrite (null_as_zero_validation _ _ _ _ H Hz). }
  destruct (mode_equal_or_not (Node.nullHandlingMode node) Tree.DROP_NULL) as [Hd|Hd].
  { by rewrite (drop_null_drops_each_null _ _ _ _ H Hd). }
  unfold raised. by rewrite (unknown_mode_validation _ _ _ _ H Hd Hz Ht Hp).
Qed.

(** The failure is a NullValueError exactly when the mode is the
    throwing one and the node can be serialized for the message;
    otherwise it is a TypeError. *)
Lemma validateValues_raises_NullValueError_iff
    (h : Node.heap) (this : Node.addr) (node : Node.t) (values : list JSValue) :
  h !! this = Some node →
  raised (Node.validateValues h this (Some values)) = Some NullValueError
  ↔ Node.nullHandlingMode node = Tree.THROW_ERROR_ON_NULL ∧ has_null values = true
    ∧ raised (Node.JSON_stringify h this) = None.
Proof.
  intros H. split.
  - intros Hr.
    assert (Hne : raised (Node.validateValues h this (Some values)) ≠ None)
      by (by rewrite Hr).
    apply (validateValues_raises_iff _ _ _ _ H) in Hne as [Hn [Ht|Hu]].
    + split; [done|]. split; [done|].
      rewrite (throw_mode_validation _ _ _ _ H Ht), Hn, raised_bind in Hr.
      destruct (JSON_stringify_raises h this) as [Hj|Hj]; [done|].
      unfold raised in Hj.
      destruct (completion (Node.JSON_stringify h this)); [done|]. congruence.
    + by rewrite (unprintable_mode_validation _ _ _ _ H Hu), Hn in Hr.
  - intros (Ht & Hn & Hj).
    rewrite (throw_mode_validation _ _ _ _ H Ht), Hn, raised_bind.
    unfold raised in Hj. by destruct (completion (Node.JSON_stringify h this)).
Qed.

Example unlinked_node_raises_NullValueError :
  raised (Node.validateValues (single_leaf JSNull Tree.THROW_ERROR_ON_NULL) 0 (Some [JSNull]))
  = Some NullValueError.
Proof. vm_compute. reflexivity. Qed.

(** C7.  In the throwing mode a null operand does not always bring a
    NullValueError: on the root of the linked tree of [A+B], with the
    operands 2 and null, building the message serializes the node,
    the serializer meets the root again through a child's [parent],
    and the call ends with a TypeError. *)
Theorem throw_mode_on_linked_node_raises_TypeError :
  Node.nullHandlingMode <$> linked_tree !! 0
  = Some (Tree.Text Tree.THROW_ERROR_ON_NULL)
  ∧ has_null [JSNumber (of_Z 2); JSNull] = true
  ∧ raised (Node.validateValues linked_tree 0 (Some [JSNumber (of_Z 2); JSNull]))
    = Some TypeError.
Proof. vm_compute. done. Qed.

(** C10, as stated, fails on the code: a Symbol is none of the three
    constants, and with it as the mode the fallback cannot build its
    warning: on the list that holds one null the call raises a
    TypeError, while the same node under [NULL_AS_ZERO] returns the
    list 0, null. *)
Lemma unknown_mode_counterexample :
  Tree.equals symbol_mode Tree.DROP_NULL = false
  ∧ Tree.equals symbol_mode Tree.NULL_AS_ZERO = false
  ∧ Tree.equals symbol_mode Tree.THROW_ERROR_ON_NULL = false
  ∧ raised (Node.validateValues (single_leaf JSNull symbol_mode) 0 (Some [JSNull]))
    = Some TypeError
  ∧ completion (Node.validateValues (single_leaf JSNull Tree.NULL_AS_ZERO) 0
                  (Some [JSNull]))
    = Normal [JSNumber (of_Z 0); JSNull].
Proof. vm_compute. done. Qed.

(** C10, amended.  For every operand list and every mode that is none
    of [DROP_NULL], [NULL_AS_ZERO] and [THROW_ERROR_ON_NULL] and that
    can be turned into text, as every value but a Symbol can,
    [validateValues] does not throw and returns the very list it
    returns on the same node under [NULL_AS_ZERO]. *)
Theorem unknown_mode_falls_back_to_null_as_zero
    (h : Node.heap) (this : Node.addr) (node : Node.t) (values : list JSValue) :
  h !! this = Some node →
  Node.nullHandlingMode node ≠ Tree.DROP_NULL →
  Node.nullHandlingMode node ≠ Tree.NULL_AS_ZERO →
  Node.nullHandlingMode node ≠ Tree.THROW_ERROR_ON_NULL →
  ¬ unprintable (Node.nullHandlingMode node) →
  ∃ validated,
    completion (Node.validateValues h this (Some values)) = Normal validated
    ∧ completion
        (Node.validateValues
           (<[this := Node.set_nullHandlingMode Tree.NULL_AS_ZERO node]> h) this
           (Some values))
      = Normal validated.
Proof.
  intros H Hd Hz Ht Hp. exists (zero_before_each_null values). split.
  - by apply (unknown_mode_validation _ _ node).
  - erewrite null_as_zero_validation; [done | apply lookup_insert_eq | done].
Qed.

Lemma unknown_mode_falls_back_to_null_as_zero_example :
  ∃ validated,
    completion (Node.validateValues (single_leaf JSNull "zero") 0
                  (Some [JSNumber (of_Z 7); JSNull])) = Normal validated
    ∧ completion (Node.validateValues
                    (<[0 := Node.set_nullHandlingMode Tree.NULL_AS_ZERO
                              (Node.mk None
                                 (Node.ItemValue (Value.new (Value.Literal JSNull) None))
                                 [] JSUndefined "zero")]>
                       (single_leaf JSNull "zero")) 0
                    (Some [JSNumber (of_Z 7); JSNull])) = Normal validated.
Proof.
  apply (unknown_mode_falls_back_to_null_as_zero (single_leaf JSNull "zero") 0
           (Node.mk None (Node.ItemValue (Value.new (Value.Literal JSNull) None))
                    [] JSUndefined "zero") [JSNumber (of_Z 7); JSNull]);
    [reflexivity | discriminate | discriminate | discriminate |].
  intros [json H]. discriminate.
Defined.

(** * Further properties of the code *)

(** ** Runs, continued *)

Lemma completion_bind_normal {A B} (m : Run A) (k : A → Run B) b :
  completion (m ≫= k) = Normal b →
  ∃ a, completion m = Normal a ∧ completion (k a) = Normal b.
Proof.
  unfold mbind, Run_bind. destruct (completion m) as [a|e]; [eauto | discriminate].
Qed.

Lemma for_of_invariant {A S} (I : S → Prop) (body : A → S → Run S) l s s' :
  (∀ x s s', x ∈ l → I s → completion (body x s) = Normal s' → I s') →
  I s → completion (for_of body l s) = Normal s' → I s'.
Proof.
  revert s. induction l as [|x l IH]; intros s Hbody Hs Hrun.
  - simpl in Hrun. by injection Hrun as <-.
  - rewrite for_of_cons in Hrun.
    apply completion_bind_normal in Hrun as (s1 & H1 & H2).
    apply (IH s1); [|by eapply (Hbody x s); [left|..]|done].
    intros y t t' Hy. apply Hbody. by right.
Qed.

(** ** Strings *)

Lemma chars_cons (a : ascii) (s : string) :
  chars (String a s) = String a EmptyString :: chars s.
Proof. reflexivity. Qed.

Lemma append_char (a : ascii) (s : string) : String a EmptyString +:+ s = String a s.
Proof. reflexivity. Qed.

Lemma chars_app (a b : string) : chars (a +:+ b) = chars a ++ chars b.
Proof.
  induction a as [|x a IH]; [done|].
  change (chars (String x (a +:+ b)) = chars (String x a) ++ chars b).
  by rewrite !chars_cons, IH.
Qed.

Lemma chars_nonempty (s : string) (char : string) : char ∈ chars s → char ≠ "".
Proof.
  induction s as [|a s IH]; [by intros ?%elem_of_nil|].
  rewrite chars_cons. intros [->|H]%elem_of_cons; [done | by apply IH].
Qed.

Lemma chars_single (s : string) (char : string) :
  char ∈ chars s → ∃ a, char = String a EmptyString.
Proof.
  induction s as [|a s IH]; [by intros ?%elem_of_nil|].
  rewrite chars_cons. intros [->|H]%elem_of_cons; [eauto | by apply IH].
Qed.

Lemma replaceAll_cons (pattern replacement : string) (a : ascii) (s : string) :
  replaceAll pattern replacement (String a s)
  = (if String.eqb (String a EmptyString) pattern then replacement
     else String a EmptyString) +:+ replaceAll pattern replacement s.
Proof. reflexivity. Qed.

Lemma chars_replaceAll (pattern replacement s : string) :
  chars (replaceAll pattern replacement s)
  = chars s ≫= λ char, if String.eqb char pattern then chars replacement else [char].
Proof.
  induction s as [|a s IH]; [done|].
  rewrite replaceAll_cons, chars_app, IH, chars_cons.
  change ((String a EmptyString :: chars s) ≫= ?f)
    with (f (String a EmptyString) ++ (chars s ≫= f)).
  cbv beta. by destruct (String.eqb (String a EmptyString) pattern).
Qed.

Lemma replaceAll_absent (pattern replacement s : string) :
  pattern ∉ chars s → replaceAll pattern replacement s = s.
Proof.
  induction s as [|a s IH]; [done|].
  rewrite chars_cons, replaceAll_cons. intros H.
  apply not_elem_of_cons in H as [Ha Hs].
  destruct (String.eqb (String a EmptyString) pattern) eqn:E.
  - apply String.eqb_eq in E. congruence.
  - by rewrite (IH Hs).
Qed.

Lemma elem_of_chars_replaceAll (pattern replacement s char : string) :
  char ∈ chars (replaceAll pattern replacement s) →
  (char ∈ chars s ∧ char ≠ pattern) ∨ char ∈ chars replacement.
Proof.
  rewrite chars_replaceAll. intros (c & Hc & Hin)%list_elem_of_bind.
  destruct (String.eqb c pattern) eqn:E; [by right|].
  apply list_elem_of_singleton in Hc as ->. left. split; [done|].
  by apply String.eqb_neq.
Qed.

Lemma bind_ext {A B} (m : Run A) (k k' : A → Run B) :
  (∀ a, k a = k' a) → m ≫= k = m ≫= k'.
Proof. intros H. unfold mbind, Run_bind. destruct (completion m); by rewrite ?H. Qed.

Lemma bind_assoc {A B C} (m : Run A) (k1 : A → Run B) (k2 : B → Run C) :
  (m ≫= k1) ≫= k2 = m ≫= λ a, k1 a ≫= k2.
Proof.
  unfold mbind, Run_bind. destruct (completion m) as [a|e]; simpl; [|done].
  destruct (completion (k1 a)); simpl; [|done]. by rewrite app_assoc.
Qed.

Lemma for_of_app {A S} (body : A → S → Run S) l1 l2 s :
  for_of body (l1 ++ l2) s = for_of body l1 s ≫= for_of body l2.
Proof.
  revert s. induction l1 as [|x l1 IH]; intros s.
  - change (for_of body l2 s = mret s ≫= for_of body l2). by rewrite bind_ret.
  - change ((x :: l1) ++ l2) with (x :: (l1 ++ l2)).
    rewrite !for_of_cons, bind_assoc. apply bind_ext. intros s'. apply IH.
Qed.

(** ** The scan, whatever the operator test *)

Section ScanProperties.

Variable is_operation : string → Run bool.

Lemma scan_comma s : XParser.scan_char is_operation "," s = mret s.
Proof. reflexivity. Qed.

Lemma scan_without_commas (l : list string) s :
  for_of (XParser.scan_char is_operation)
         (l ≫= λ char, if String.eqb char "," then [] else [char]) s
  = for_of (XParser.scan_char is_operation) l s.
Proof.
  revert s. induction l as [|char l IH]; intros s; [done|].
  change ((char :: l) ≫= ?f) with (f char ++ (l ≫= f)). cbv beta.
  destruct (String.eqb char ",") eqn:E.
  - apply String.eqb_eq in E as ->.
    by rewrite for_of_cons, scan_comma, bind_ret, <- IH.
  - change ([char] ++ ?l') with (char :: l'). rewrite !for_of_cons.
    apply bind_ext. intros s'. apply IH.
Qed.

(** X1.  Commas leave no trace in the scan: an expression and the same
    expression with every comma deleted are tokenized alike, with the
    same tokens, the same console output and the same failure. *)
Theorem tokenize_ignores_commas (expression : string) :
  XParser.tokenize is_operation (replaceAll "," "" expression)
  = XParser.tokenize is_operation expression.
Proof.
  unfold XParser.tokenize. by rewrite chars_replaceAll, scan_without_commas.
Qed.

Lemma scan_numeric char s :
  numeric char = true → numeric_run s →
  ∃ s', XParser.scan_char is_operation char s = mret s' ∧ numeric_run s'.
Proof.
  unfold numeric. intros Hc [Ht Hs]. unfold XParser.scan_char.
  destruct (XParser._isNumber char) eqn:En.
  - eexists. split; [reflexivity|].
    assert (negb (XParser._isNumber (XParser.previousChar s))
            && negb (XParser._isDecimalPoint (XParser.previousChar s))
            && negb (String.eqb (XParser.currentToken s) "") = false) as ->.
    { destruct Hs as [->|[->| ->]]; [by rewrite !andb_false_r | done |].
      simpl. by rewrite andb_false_r. }
    split; [done|]. right; left. exact En.
  - destruct (XParser._isComma char) eqn:Ec.
    + apply String.eqb_eq in Ec as ->. eexists. split; [reflexivity|]. by split.
    + simpl in Hc. apply String.eqb_eq in Hc as ->.
      eexists. split; [reflexivity|]. split; [done|]. right; right. reflexivity.
Qed.

Lemma scan_all_numeric l s :
  forallb numeric l = true → numeric_run s →
  ∃ s', for_of (XParser.scan_char is_operation) l s = mret s' ∧ numeric_run s'.
Proof.
  revert s. induction l as [|char l IH]; intros s H Hs; [by exists s|].
  simpl in H. apply andb_prop in H as [Hc Hl].
  destruct (scan_numeric char s Hc Hs) as (s1 & E1 & H1).
  rewrite for_of_cons, E1, bind_ret. by apply IH.
Qed.

(** X2.  A numeric literal on its own yields no token: on an
    expression made only of digits, commas and periods the scan
    completes silently with the empty list, the run it gathered being
    left in [currentToken] when the input ends. *)
Theorem numeric_literal_yields_no_token (expression : string) :
  forallb numeric (chars expression) = true →
  XParser.tokenize is_operation expression = mret [].
Proof.
  intros H. unfold XParser.tokenize.
  destruct (scan_all_numeric (chars expression) (XParser.mkScan [] "" "") H)
    as (s & -> & Hs & _); [split; [done | by left]|].
  by rewrite bind_ret, Hs.
Qed.

Lemma flush_keeps_tokens_nonempty s :
  XParser.currentToken s ≠ "" → "" ∉ XParser.scan_tokens s →
  "" ∉ XParser.scan_tokens (XParser.flush s).
Proof.
  intros Hc Hs. simpl. intros [H|H%list_elem_of_singleton]%elem_of_app; [done|].
  by apply Hc.
Qed.

Lemma flush_nonempty_keeps_tokens_nonempty s :
  "" ∉ XParser.scan_tokens s → "" ∉ XParser.scan_tokens (XParser.flush_nonempty s).
Proof.
  intros Hs. unfold XParser.flush_nonempty.
  destruct (String.eqb (XParser.currentToken s) "") eqn:E; [done|].
  apply flush_keeps_tokens_nonempty; [|done]. by apply String.eqb_neq.
Qed.

Lemma emit_keeps_tokens_nonempty char s :
  char ≠ "" → "" ∉ XParser.scan_tokens s →
  "" ∉ XParser.scan_tokens (XParser.emit char s).
Proof.
  intros Hc Hs. simpl. intros [H|H%list_elem_of_singleton]%elem_of_app; [done|].
  by apply Hc.
Qed.

Lemma scan_char_keeps_tokens_nonempty char s s' :
  char ≠ "" → "" ∉ XParser.scan_tokens s →
  completion (XParser.scan_char is_operation char s) = Normal s' →
  "" ∉ XParser.scan_tokens s'.
Proof.
  intros Hc Hs. unfold XParser.scan_char.
  destruct (XParser._isNumber char).
  { destruct (negb (XParser._isNumber (XParser.previousChar s))
              && negb (XParser._isDecimalPoint (XParser.previousChar s))
              && negb (String.eqb (XParser.currentToken s) "")) eqn:E;
      intros [= <-]; [|done].
    apply flush_keeps_tokens_nonempty; [|done].
    apply andb_prop in E as [_ E]. apply String.eqb_neq. by destruct (String.eqb _ _). }
  destruct (XParser._isLetter char).
  { destruct (negb (XParser._isLetter (XParser.previousChar s))
              && negb (String.eqb (XParser.currentToken s) "")) eqn:E;
      intros [= <-]; [|done].
    apply flush_keeps_tokens_nonempty; [|done].
    apply andb_prop in E as [_ E]. apply String.eqb_neq. by destruct (String.eqb _ _). }
  destruct (XParser._isComma char); [by intros [= <-]|].
  destruct (XParser._isDecimalPoint char); [by intros [= <-]|].
  intros (operation & _ & H)%completion_bind_normal.
  destruct operation; [|destruct (XParser._isLeftParen char)].
  - injection H as <-.
    by apply emit_keeps_tokens_nonempty, flush_nonempty_keeps_tokens_nonempty.
  - injection H as <-.
    by apply emit_keeps_tokens_nonempty, flush_nonempty_keeps_tokens_nonempty.
  - apply completion_bind_normal in H as (_ & _ & H). by injection H as <-.
Qed.

(** X3.  No token is the empty string: whenever the scan completes,
    every token it returns has at least one character. *)
Theorem tokens_are_nonempty (expression : string) (tokens : list string) :
  completion (XParser.tokenize is_operation expression) = Normal tokens →
  "" ∉ tokens.
Proof.
  unfold XParser.tokenize. intros (s & Hs & H)%completion_bind_normal.
  injection H as <-.
  apply (for_of_invariant (λ s, "" ∉ XParser.scan_tokens s)
           (XParser.scan_char is_operation) (chars expression)
           (XParser.mkScan [] "" "") s); [|apply not_elem_of_nil|done].
  intros char t t' Hin. apply scan_char_keeps_tokens_nonempty.
  by apply (chars_nonempty expression).
Qed.

End ScanProperties.

(** X4.  [tokenizeExpression] completes exactly on the expressions
    made only of digits, letters, commas and periods; on every other
    expression it raises a TypeError; either way it writes nothing on
    the console. *)
Theorem tokenizeExpression_outcome (this : XParser.t) (expression : string) :
  raised (XParser.tokenizeExpression this expression)
  = (if forallb plain (chars expression) then None else Some TypeError)
  ∧ events (XParser.tokenizeExpression this expression) = [].
Proof.
  unfold XParser.tokenizeExpression.
  destruct (forallb plain (chars expression)) eqn:H.
  - by destruct (tokenize_all_plain (XParser._isOperation this) expression H) as [? ->].
  - by rewrite (tokenize_raises (XParser._isOperation this) expression
                  (mkError TypeError "this.operations is not iterable" None)).
Qed.

(** *** A run of digits followed by a run of letters *)

Lemma digit_is_no_letter (a : ascii) :
  XParser._isNumber (String a EmptyString) = true →
  XParser._isLetter (String a EmptyString) = false.
Proof.
  unfold XParser._isNumber, XParser._isLetter, test_class, XParser.digit,
    XParser.letter, in_range. simpl. rewrite !orb_false_r.
  intros [_ H]%andb_prop. apply N.leb_le in H.
  apply orb_false_intro; apply andb_false_intro1; apply N.leb_gt; lia.
Qed.

Lemma letter_is_no_digit (a : ascii) :
  XParser._isLetter (String a EmptyString) = true →
  XParser._isNumber (String a EmptyString) = false.
Proof.
  intros H. destruct (XParser._isNumber (String a EmptyString)) eqn:E; [|done].
  apply digit_is_no_letter in E. congruence.
Qed.

Section Runs.

Variable is_operation : string → Run bool.

Lemma scan_digit (a : ascii) s :
  XParser._isNumber (String a EmptyString) = true →
  XParser.currentToken s = "" ∨ XParser._isNumber (XParser.previousChar s) = true →
  XParser.scan_char is_operation (String a EmptyString) s
  = mret (XParser.mkScan (XParser.scan_tokens s)
            (XParser.currentToken s +:+ String a EmptyString) (String a EmptyString)).
Proof.
  intros Ha Hs. unfold XParser.scan_char. rewrite Ha.
  assert (negb (XParser._isNumber (XParser.previousChar s))
          && negb (XParser._isDecimalPoint (XParser.previousChar s))
          && negb (String.eqb (XParser.currentToken s) "") = false) as ->; [|done].
  destruct Hs as [->| ->]; [by rewrite andb_false_r | done].
Qed.

Lemma scan_digits (digits : string) s :
  forallb XParser._isNumber (chars digits) = true →
  XParser.currentToken s = "" ∨ XParser._isNumber (XParser.previousChar s) = true →
  ∃ p, for_of (XParser.scan_char is_operation) (chars digits) s
       = mret (XParser.mkScan (XParser.scan_tokens s)
                              (XParser.currentToken s +:+ digits) p)
       ∧ (digits = "" ∧ p = XParser.previousChar s
          ∨ XParser._isNumber p = true ∧ XParser._isLetter p = false).
Proof.
  revert s. induction digits as [|a digits IH]; intros s H Hs.
  - exists (XParser.previousChar s). split; [|by left].
    simpl. rewrite append_empty. by destruct s.
  - rewrite chars_cons in *. simpl in H. apply andb_prop in H as [Ha Hd].
    rewrite for_of_cons, (scan_digit a s Ha Hs), bind_ret.
    destruct (IH (XParser.mkScan (XParser.scan_tokens s)
                    (XParser.currentToken s +:+ String a EmptyString)
                    (String a EmptyString)) Hd) as (p & -> & Hp); [by right|].
    exists p. simpl. rewrite append_assoc. split; [done|]. right.
    destruct Hp as [[_ ->]|Hp]; [|done]. simpl.
    split; [done | by apply digit_is_no_letter].
Qed.

Lemma scan_letter (b : ascii) s :
  XParser._isLetter (String b EmptyString) = true →
  XParser.scan_char is_operation (String b EmptyString) s
  = mret (XParser.remember (String b EmptyString)
            (XParser.extend (String b EmptyString)
               (if negb (XParser._isLetter (XParser.previousChar s))
                   && negb (String.eqb (XParser.currentToken s) "")
                then XParser.flush s else s))).
Proof.
  intros Hb. unfold XParser.scan_char.
  by rewrite (letter_is_no_digit b Hb), Hb.
Qed.

Lemma scan_letters (letters : string) s :
  forallb XParser._isLetter (chars letters) = true →
  XParser._isLetter (XParser.previousChar s) = true →
  ∃ s', for_of (XParser.scan_char is_operation) (chars letters) s = mret s'
        ∧ XParser.scan_tokens s' = XParser.scan_tokens s.
Proof.
  revert s. induction letters as [|b letters IH]; intros s H Hs; [by exists s|].
  rewrite chars_cons in *. simpl in H. apply andb_prop in H as [Hb Hl].
  rewrite for_of_cons, (scan_letter b s Hb), Hs, bind_ret. simpl.
  destruct (IH (XParser.remember (String b EmptyString)
                  (XParser.extend (String b EmptyString) s)) Hl) as (s' & -> & Ht);
    [exact Hb|].
  by exists s'.
Qed.

(** X5.  A run of digits directly followed by a run of letters yields
    one token, the digits: the letter that ends the number pushes it,
    and the letters, still pending when the input ends, are not
    pushed. *)
Theorem digits_then_letters (digits letters : string) :
  digits ≠ "" → letters ≠ "" →
  forallb XParser._isNumber (chars digits) = true →
  forallb XParser._isLetter (chars letters) = true →
  XParser.tokenize is_operation (digits +:+ letters) = mret [digits].
Proof.
  intros Hd Hl Hds Hls. unfold XParser.tokenize. rewrite chars_app, for_of_app.
  destruct (scan_digits digits (XParser.mkScan [] "" "") Hds) as (p & E & Hp);
    [by left|].
  destruct Hp as [[-> _]|[Hp1 Hp2]]; [done|].
  set (s0 := XParser.mkScan [] digits p).
  assert (E0 : for_of (XParser.scan_char is_operation) (chars digits)
                 (XParser.mkScan [] "" "") = mret s0) by exact E.
  rewrite E0, bind_ret. destruct letters as [|b letters]; [done|].
  rewrite chars_cons in *.
  change (XParser._isLetter (String b EmptyString)
          && forallb XParser._isLetter (chars letters) = true) in Hls.
  apply andb_prop in Hls as [Hb Hls].
  rewrite for_of_cons, (scan_letter b _ Hb), bind_ret.
  assert (negb (XParser._isLetter (XParser.previousChar s0))
          && negb (String.eqb (XParser.currentToken s0) "") = true) as ->.
  { unfold s0. cbn [XParser.previousChar XParser.currentToken].
    rewrite Hp2. apply String.eqb_neq in Hd. by rewrite Hd. }
  destruct (scan_letters letters
              (XParser.remember (String b EmptyString)
                 (XParser.extend (String b EmptyString) (XParser.flush s0))) Hls)
    as (s' & -> & Ht); [exact Hb|].
  rewrite bind_ret, Ht. reflexivity.
Qed.

End Runs.

Lemma digits_then_letters_example :
  XParser.tokenize (XParser._isOperation connected) ("12" +:+ "ab") = mret ["12"].
Proof.
  apply (digits_then_letters (XParser._isOperation connected) "12" "ab");
    [discriminate | discriminate | reflexivity | reflexivity].
Defined.

(** ** Preprocessing *)

Lemma preprocess_without_swap (this : XParser.t) (expression : string) :
  XParser._internationalFormat this ≠ Some true →
  XParser._preprocessExpression this expression
  = mret (replaceAll XParser.newline "undefined"
            (replaceAll XParser.tab "" (replaceAll " " "" expression))).
Proof.
  intros H. unfold XParser._preprocessExpression.
  by destruct (XParser._internationalFormat this) as [[]|].
Qed.

Lemma undefined_has_no_blank (char : string) :
  char ∈ chars "undefined" → whitespace char = false.
Proof.
  change (chars "undefined") with ["u"; "n"; "d"; "e"; "f"; "i"; "n"; "e"; "d"].
  intros H. repeat (apply elem_of_cons in H as [->|H]; [reflexivity|]).
  by apply elem_of_nil in H.
Qed.

(** X6.  Unless the international format is on, preprocessing
    completes and its result holds no space, no tab and no newline. *)
Theorem preprocessed_text_has_no_blank (this : XParser.t) (expression : string) :
  XParser._internationalFormat this ≠ Some true →
  ∃ text, XParser._preprocessExpression this expression = mret text
          ∧ ∀ char, char ∈ chars text → whitespace char = false.
Proof.
  intros H. eexists. split; [by apply preprocess_without_swap|].
  intros char Hin.
  apply elem_of_chars_replaceAll in Hin as [[Hin Hn]|Hin];
    [|by apply undefined_has_no_blank].
  apply elem_of_chars_replaceAll in Hin as [[Hin Ht]|Hin];
    [|by apply elem_of_nil in Hin].
  apply elem_of_chars_replaceAll in Hin as [[Hin Hs]|Hin];
    [|by apply elem_of_nil in Hin].
  unfold whitespace. apply String.eqb_neq in Hn, Ht, Hs. by rewrite Hn, Ht, Hs.
Qed.

Lemma preprocessed_text_has_no_blank_example :
  ∃ text, XParser._preprocessExpression connected " 1 + 2 " = mret text
          ∧ ∀ char, char ∈ chars text → whitespace char = false.
Proof.
  apply (preprocessed_text_has_no_blank connected " 1 + 2 "). discriminate.
Defined.

(** X7.  Unless the international format is on, an expression that
    holds no space, no tab and no newline comes back from
    preprocessing unchanged. *)
Theorem preprocess_keeps_text_without_blank (this : XParser.t) (expression : string) :
  XParser._internationalFormat this ≠ Some true →
  (∀ char, char ∈ chars expression → whitespace char = false) →
  XParser._preprocessExpression this expression = mret expression.
Proof.
  intros H Hw. rewrite preprocess_without_swap by done.
  assert (Hnot : ∀ blank, whitespace blank = true → blank ∉ chars expression).
  { intros blank Hb Hin. apply Hw in Hin. congruence. }
  rewrite (replaceAll_absent " ") by (by apply Hnot).
  rewrite (replaceAll_absent XParser.tab) by (by apply Hnot).
  by rewrite (replaceAll_absent XParser.newline) by (by apply Hnot).
Qed.

Lemma preprocess_keeps_text_without_blank_example :
  XParser._preprocessExpression connected "1+2" = mret "1+2".
Proof.
  apply (preprocess_keeps_text_without_blank connected "1+2"); [discriminate|].
  change (chars "1+2") with ["1"; "+"; "2"]. intros char H.
  repeat (apply elem_of_cons in H as [->|H]; [reflexivity|]).
  by apply elem_of_nil in H.
Defined.

(** ** [calculate] and [connectedCallback] *)

(** X8.  [calculate] never completes normally: without a variable map
    it raises a ReferenceError while evaluating the default of the
    parameter, and with one it raises a TypeError, whatever the
    expression, the callback and the format flag. *)
Theorem calculate_always_raises
    (this : XParser.t) (expression : string)
    (variableMap : option (gmap string JSValue)) (callback : Callback)
    (internationalFormat : bool) :
  raised (XParser.calculate this expression variableMap callback internationalFormat).2
  = Some (match variableMap with Some _ => TypeError | None => ReferenceError end).
Proof. by destruct variableMap, internationalFormat. Qed.

(** X9.  [calculate] never assigns [tree], [operations] or [tokens];
    without a variable map it leaves the whole component as it was,
    and with the international format on it changes nothing but the
    format flag. *)
Theorem calculate_leaves_fields
    (this : XParser.t) (expression : string)
    (variableMap : option (gmap string JSValue)) (callback : Callback)
    (internationalFormat : bool) :
  let this' :=
    (XParser.calculate this expression variableMap callback internationalFormat).1 in
  XParser.tree this' = XParser.tree this
  ∧ XParser.operations this' = XParser.operations this
  ∧ XParser.tokens this' = XParser.tokens this
  ∧ (variableMap = None → this' = this)
  ∧ (internationalFormat = true → is_Some variableMap →
     this' = XParser.set__internationalFormat true this).
Proof.
  destruct variableMap as [vm|], internationalFormat; simpl;
    repeat split; try done; by intros ? [].
Qed.

Lemma calculate_leaves_fields_example :
  (XParser.calculate connected "1,5" (Some ∅) (CallbackFn 0) true).1
  = XParser.set__internationalFormat true connected.
Proof.
  apply (calculate_leaves_fields connected "1,5" (Some ∅) (CallbackFn 0) true);
    [reflexivity | by eexists].
Defined.

(** X10.  [connectedCallback] replaces the registry, whatever it held,
    by one with exactly the keys [+], [-], [*], [/] and [%]; it
    touches no other field, and running it again changes nothing. *)
Theorem connectedCallback_resets_registry (this : XParser.t) :
  (∃ operations,
     XParser.operations (XParser.connectedCallback this) = Some operations
     ∧ ∀ symbol, is_Some (operations !! symbol)
                 ↔ symbol ∈ ["+"; "-"; "*"; "/"; "%"])
  ∧ XParser.tree (XParser.connectedCallback this) = XParser.tree this
  ∧ XParser.expression (XParser.connectedCallback this) = XParser.expression this
  ∧ XParser.variableMap (XParser.connectedCallback this) = XParser.variableMap this
  ∧ XParser.callback (XParser.connectedCallback this) = XParser.callback this
  ∧ XParser.tokens (XParser.connectedCallback this) = XParser.tokens this
  ∧ XParser._internationalFormat (XParser.connectedCallback this)
    = XParser._internationalFormat this
  ∧ XParser.connectedCallback (XParser.connectedCallback this)
    = XParser.connectedCallback this.
Proof.
  split; [|by repeat split].
  destruct (registry_after_connect this) as (operations & -> & Hdom).
  exists operations. split; [done|]. intros symbol.
  rewrite <- elem_of_dom, Hdom. set_solver.
Qed.

(** ** utils.js, continued *)

Lemma swap_ascii_involutive (c : ascii) : swap_ascii (swap_ascii c) = c.
Proof.
  unfold swap_ascii.
  destruct (Ascii.eqb_spec c ","%char) as [->|Hc]; [done|].
  destruct (Ascii.eqb_spec c "."%char) as [->|Hp]; [done|].
  apply Ascii.eqb_neq in Hc, Hp. by rewrite Hc, Hp.
Qed.

Lemma swap_twice (l : list ascii) : swap_ascii <$> (swap_ascii <$> l) = l.
Proof.
  induction l as [|c l IH]; [done|].
  rewrite !fmap_cons, IH. by rewrite swap_ascii_involutive.
Qed.

(** X11.  The text [swapPeriodsAndCommas] gathers in [result] is the
    input with each comma and period exchanged, one character for one:
    it has the length of the input, and gathering once more from it
    gives the input back. *)
Theorem swap_result_round_trip (str : string) :
  Utils.swapPeriodsAndCommas_result (Utils.swapPeriodsAndCommas_result str) = str
  ∧ String.length (Utils.swapPeriodsAndCommas_result str) = String.length str.
Proof.
  rewrite !swap_result_is_swapped. unfold periods_and_commas_swapped.
  rewrite String.list_ascii_of_string_of_list_ascii. split.
  - rewrite swap_twice. apply String.string_of_list_ascii_of_string.
  - induction str as [|a str IH]; [done|].
    change (S (String.length
                 (String.string_of_list_ascii
                    (swap_ascii <$> String.list_ascii_of_string str)))
            = S (String.length str)).
    by rewrite IH.
Qed.

(** ** Building a tree *)

(** X12.  No node and no tree can be built.  [new Node(...)] raises a
    ReferenceError when its parent is a node or [null] and its item is
    defined, and a TypeError otherwise, when the parent is neither or
    the item is [undefined]; [new Tree(item)], which builds its root
    with the parent [null], raises a ReferenceError when the item is
    defined and a TypeError when it is not, whatever the mode. *)
Theorem constructors_always_raise
    (parent : Construction.parent_argument) (item : option Node.Item)
    (children : list Node.addr) (mode : option Tree.mode) :
  raised (Construction.new_Node parent item children mode)
  = Some (match parent, item with
          | Construction.ParentOther, _ => TypeError
          | _, Some _ => ReferenceError
          | _, None => TypeError
          end)
  ∧ raised (Construction.new_Tree item mode)
    = Some (match item with Some _ => ReferenceError | None => TypeError end).
Proof. by destruct parent, item. Qed.

(** ** The children of a node *)

Lemma all_items_are_values_spec (h : Node.heap) (children : list Node.addr) :
  Forall (λ child, is_Some (h !! child)) children →
  Node.all_items_are_values h children
  = mret (forallb (λ child,
                     from_option (λ c, Node.instanceof_Value (Node.item c)) false
                                 (h !! child))
                  children).
Proof.
  induction 1 as [|child children [c Hc] _ IH]; [done|].
  cbn [Node.all_items_are_values forallb].
  rewrite (deref_some _ _ _ Hc), bind_ret, Hc. simpl.
  destruct (Node.instanceof_Value (Node.item c)); [exact IH | done].
Qed.

Lemma childrenAreAllValues_answer
    (h : Node.heap) (this : Node.addr) (node : Node.t) :
  h !! this = Some node →
  Forall (λ child, is_Some (h !! child)) (Node.children node) →
  ∃ answer : bool,
    Node._childrenAreAllValuesOrNoChildren h this = mret answer
    ∧ (answer = true
       ↔ Node.children node ≠ []
         ∧ ∀ child, child ∈ Node.children node →
             ∃ c, h !! child = Some c ∧ Node.instanceof_Value (Node.item c) = true).
Proof.
  intros H Hch. unfold Node._childrenAreAllValuesOrNoChildren.
  rewrite (deref_some _ _ _ H), bind_ret.
  destruct (Node.children node) as [|child children] eqn:E.
  - exists false. split; [done|]. split; [done | by intros [? _]].
  - change (Nat.eqb (length (child :: children)) 0) with false. cbv iota.
    rewrite (all_items_are_values_spec _ _ Hch). eexists. split; [reflexivity|].
    rewrite forallb_forall. split.
    + intros Hall. split; [done|]. intros x Hx.
      apply list_elem_of_In, Hall in Hx.
      destruct (h !! x) as [c|]; [|done]. by exists c.
    + intros [_ Hall] x Hx. apply list_elem_of_In, Hall in Hx as (c & -> & Hc). done.
Qed.

(** X13.  [_childrenAreAllValuesOrNoChildren] answers [true] exactly
    when the node has at least one child and the item of every child
    is a Value; for a node without children it answers [false]. *)
Theorem childrenAreAllValues_spec
    (h : Node.heap) (this : Node.addr) (node : Node.t) :
  h !! this = Some node →
  Forall (λ child, is_Some (h !! child)) (Node.children node) →
  ∃ answer : bool,
    Node._childrenAreAllValuesOrNoChildren h this = mret answer
    ∧ (answer = true
       ↔ Node.children node ≠ []
         ∧ ∀ child, child ∈ Node.children node →
             ∃ c, h !! child = Some c ∧ Node.instanceof_Value (Node.item c) = true).
Proof. apply childrenAreAllValues_answer. Qed.

Lemma childrenAreAllValues_spec_example :
  ∃ answer : bool,
    Node._childrenAreAllValuesOrNoChildren linked_tree 0 = mret answer
    ∧ (answer = true
       ↔ [1; 2] ≠ []
         ∧ ∀ child, child ∈ [1; 2] →
             ∃ c, linked_tree !! child = Some c
                  ∧ Node.instanceof_Value (Node.item c) = true).
Proof.
  apply (childrenAreAllValues_spec linked_tree 0
           (Node.mk None
              (Node.ItemOperation (Operation.new "+" false (λ values, mret JSUndefined)))
              [1; 2] JSUndefined Tree.THROW_ERROR_ON_NULL)); [reflexivity|].
  repeat constructor; by eexists.
Defined.

Lemma collect_values_completes (h : Node.heap) (children : list Node.addr)
    (values : list Node.Item) :
  Forall (λ child, is_Some (h !! child)) children →
  ∃ values',
    for_of (λ child (values : list Node.Item),
              c ← Node.deref h child;
              if Node.instanceof_Value (Node.item c) then mret (values ++ [Node.item c])
              else mret values)
           children values
    = mret values'.
Proof.
  intros H. revert values.
  induction H as [|child children [c Hc] _ IH]; intros values; [by exists values|].
  rewrite for_of_cons, (deref_some _ _ _ Hc), bind_ret.
  destruct (Node.instanceof_Value (Node.item c)); rewrite bind_ret; apply IH.
Qed.

Lemma getValuesOfChildren_undefined
    (h : Node.heap) (this : Node.addr) (node : Node.t) :
  h !! this = Some node →
  Forall (λ child, is_Some (h !! child)) (Node.children node) →
  Node._getValuesOfChildren h this = mret None.
Proof.
  intros H Hch. unfold Node._getValuesOfChildren.
  rewrite (deref_some _ _ _ H), bind_ret.
  destruct (collect_values_completes h (Node.children node) [] Hch) as [values ->].
  by rewrite bind_ret.
Qed.

(** X14.  [_getValuesOfChildren] hands back [undefined], never the
    values it collected, whatever the children of the node are. *)
Theorem getValuesOfChildren_yields_undefined
    (h : Node.heap) (this : Node.addr) (node : Node.t) :
  h !! this = Some node →
  Forall (λ child, is_Some (h !! child)) (Node.children node) →
  Node._getValuesOfChildren h this = mret None.
Proof. apply getValuesOfChildren_undefined. Qed.

Lemma getValuesOfChildren_yields_undefined_example :
  Node._getValuesOfChildren linked_tree 0 = mret None.
Proof.
  apply (getValuesOfChildren_yields_undefined linked_tree 0
           (Node.mk None
              (Node.ItemOperation (Operation.new "+" false (λ values, mret JSUndefined)))
              [1; 2] JSUndefined Tree.THROW_ERROR_ON_NULL)); [reflexivity|].
  repeat constructor; by eexists.
Defined.

(** ** [Node.execute], on every tree *)

Lemma events_bind_nil {A B} (m : Run A) (k : A → Run B) :
  events m = [] → (∀ a, completion m = Normal a → events (k a) = []) →
  events (m ≫= k) = [].
Proof.
  intros Hm Hk. unfold mbind, Run_bind.
  destruct (completion m) as [a|e]; simpl; [|done]. by rewrite Hm, Hk.
Qed.

Lemma events_for_of_nil {A S} (body : A → S → Run S) l s :
  (∀ x s, events (body x s) = []) → events (for_of body l s) = [].
Proof.
  intros H. revert s. induction l as [|x l IH]; intros s; [done|].
  rewrite for_of_cons. apply events_bind_nil; [apply H | intros; apply IH].
Qed.

Lemma events_deref (h : Node.heap) a : events (Node.deref h a) = [].
Proof. unfold Node.deref. by destruct (h !! a). Qed.

Lemma events_all_items_are_values (h : Node.heap) children :
  events (Node.all_items_are_values h children) = [].
Proof.
  induction children as [|child children IH]; [done|].
  cbn [Node.all_items_are_values].
  apply events_bind_nil; [apply events_deref|]. intros c _.
  by destruct (negb (Node.instanceof_Value (Node.item c))).
Qed.

Lemma events_childrenAreAllValues (h : Node.heap) this :
  events (Node._childrenAreAllValuesOrNoChildren h this) = [].
Proof.
  unfold Node._childrenAreAllValuesOrNoChildren.
  apply events_bind_nil; [apply events_deref|]. intros node _.
  destruct (Nat.eqb (length (Node.children node)) 0); [done|].
  apply events_all_items_are_values.
Qed.

Lemma getValuesOfChildren_outcome (h : Node.heap) this :
  events (Node._getValuesOfChildren h this) = []
  ∧ ∀ values, completion (Node._getValuesOfChildren h this) = Normal values →
              values = None.
Proof.
  unfold Node._getValuesOfChildren. split.
  - apply events_bind_nil; [apply events_deref|]. intros node _.
    apply events_bind_nil; [|done].
    apply events_for_of_nil. intros child values.
    apply events_bind_nil; [apply events_deref|]. intros c _.
    by destruct (Node.instanceof_Value (Node.item c)).
  - intros values (node & _ & H)%completion_bind_normal.
    apply completion_bind_normal in H as (collected & _ & H). by injection H as <-.
Qed.

(** The three shared statements never get past the operand list. *)
Lemma execute_item_raises (h : Node.heap) this node :
  events (Node.execute_item h this node) = []
  ∧ ∃ e, completion (Node.execute_item h this node) = Throw e.
Proof.
  destruct (getValuesOfChildren_outcome h this) as [Hev Hnone].
  unfold Node.execute_item, mbind, Run_bind.
  destruct (completion (Node._getValuesOfChildren h this)) as [values|e] eqn:E.
  - rewrite (Hnone values eq_refl), Hev. simpl. eauto.
  - rewrite Hev. eauto.
Qed.

(** X15.  [Node.execute] produces no event on any store, node and
    stack room: it never invokes the [execute] of an Operation, never
    calls a callback and never writes on the console. *)
Theorem execute_is_silent (h : Node.heap) (depth : nat) (this : Node.addr) :
  events (Node.execute h depth this) = [].
Proof.
  revert this. induction depth as [|depth IH]; intros this; [done|].
  cbn [Node.execute].
  apply events_bind_nil; [apply events_deref|]. intros node _.
  apply events_bind_nil; [apply events_childrenAreAllValues|]. intros leaf _.
  destruct (leaf && Node.instanceof_Operation (Node.item node)).
  - apply events_bind_nil; [apply execute_item_raises | done].
  - apply events_bind_nil.
    + apply events_for_of_nil. intros child [].
      apply events_bind_nil; [apply IH | done].
    + intros _ _. apply events_bind_nil; [apply events_childrenAreAllValues|].
      intros leaf' _. apply events_bind_nil; [|done].
      destruct leaf'; [apply execute_item_raises | done].
Qed.

(** X16.  [Node.execute] never yields a value: on any store and node,
    a call that completes completes with [undefined]. *)
Theorem execute_yields_only_undefined
    (h : Node.heap) (depth : nat) (this : Node.addr) (v : JSValue) :
  completion (Node.execute h depth this) = Normal v → v = JSUndefined.
Proof.
  destruct depth as [|depth]; [done|]. cbn [Node.execute].
  intros (node & _ & H)%completion_bind_normal.
  apply completion_bind_normal in H as (leaf & _ & H).
  destruct (leaf && Node.instanceof_Operation (Node.item node)).
  - apply completion_bind_normal in H as (? & _ & H1). by injection H1.
  - apply completion_bind_normal in H as (? & _ & H1).
    apply completion_bind_normal in H1 as (? & _ & H2).
    apply completion_bind_normal in H2 as (? & _ & H3). by injection H3.
Qed.

Lemma execute_yields_only_undefined_example :
  completion (Node.execute (single_leaf (JSNumber (of_Z 5)) Tree.DROP_NULL) 1 0)
  = Normal JSUndefined
  ∧ JSUndefined = JSUndefined.
Proof.
  assert (H : completion (Node.execute (single_leaf (JSNumber (of_Z 5)) Tree.DROP_NULL) 1 0)
              = Normal JSUndefined) by reflexivity.
  split; [exact H|].
  exact (execute_yields_only_undefined _ 1 0 JSUndefined H).
Defined.

Lemma execute_unfold (h : Node.heap) (depth : nat) (this : Node.addr) :
  Node.execute h (S depth) this
  = (node ← Node.deref h this;
     leaf ← Node._childrenAreAllValuesOrNoChildren h this;
     if (leaf : bool) && Node.instanceof_Operation (Node.item node) then
       Node.execute_item h this node;;
       mret JSUndefined
     else
       for_of (λ child _, Node.execute h depth child;; mret tt) (Node.children node) tt;;
       leaf ← Node._childrenAreAllValuesOrNoChildren h this;
       (if leaf : bool then Node.execute_item h this node else mret tt);;
       mret JSUndefined).
Proof. reflexivity. Qed.

Lemma childless_execute (h : Node.heap) (depth : nat) (this : Node.addr) (node : Node.t) :
  h !! this = Some node → Node.children node = [] →
  Node.execute h (S depth) this = mret JSUndefined.
Proof.
  intros H Hc. cbn [Node.execute].
  rewrite (deref_some _ _ _ H), bind_ret.
  rewrite (childless_is_not_a_leaf_of_values _ _ _ H Hc), bind_ret.
  rewrite Hc. reflexivity.
Qed.

Lemma execute_childless_children (h : Node.heap) (depth : nat) (children : list Node.addr) :
  (∀ child, child ∈ children → ∃ c, h !! child = Some c ∧ Node.children c = []) →
  for_of (λ child (_ : unit), Node.execute h (S depth) child;; mret tt) children tt
  = mret tt.
Proof.
  induction children as [|child children IH]; intros H; [done|].
  destruct (H child) as (c & Hc & Hk); [left|].
  rewrite for_of_cons, (childless_execute _ _ _ _ Hc Hk), !bind_ret.
  apply IH. intros x Hx. apply H. by right.
Qed.

(** X17.  A node whose children are all childless Value leaves, the
    shape of [A+B], cannot be evaluated: whatever its item, [execute]
    ends with the TypeError of iterating the operand list, which is
    [undefined]. *)
Theorem execute_over_value_leaves_raises
    (h : Node.heap) (depth : nat) (this : Node.addr) (node : Node.t) :
  h !! this = Some node →
  Node.children node ≠ [] →
  (∀ child, child ∈ Node.children node →
     ∃ c, h !! child = Some c ∧ Node.instanceof_Value (Node.item c) = true
          ∧ Node.children c = []) →
  Node.execute h (S (S depth)) this = throw TypeError "values is not iterable".
Proof.
  intros H Hne Hch.
  assert (Hsome : Forall (λ child, is_Some (h !! child)) (Node.children node)).
  { apply Forall_forall. intros child Hin.
    destruct (Hch child Hin) as (c & -> & _). by eexists. }
  destruct (childrenAreAllValues_answer h this node H Hsome) as (answer & Ha & Hiff).
  assert (answer = true) as ->.
  { apply Hiff. split; [done|]. intros child Hin.
    destruct (Hch child Hin) as (c & ? & ? & _). eauto. }
  assert (Hitem : Node.execute_item h this node
                  = throw TypeError "values is not iterable").
  { unfold Node.execute_item.
    by rewrite (getValuesOfChildren_undefined h this node H Hsome), bind_ret. }
  rewrite execute_unfold, (deref_some _ _ _ H), bind_ret, Ha, bind_ret.
  destruct (Node.instanceof_Operation (Node.item node)); cbn [andb].
  - by rewrite Hitem.
  - rewrite execute_childless_children.
    + by rewrite !bind_ret, Hitem.
    + intros child Hin. destruct (Hch child Hin) as (c & ? & _ & ?). eauto.
Qed.

Lemma execute_over_value_leaves_raises_example :
  Node.execute linked_tree 2 0 = throw TypeError "values is not iterable".
Proof.
  apply (execute_over_value_leaves_raises linked_tree 0 0
           (Node.mk None
              (Node.ItemOperation (Operation.new "+" false (λ values, mret JSUndefined)))
              [1; 2] JSUndefined Tree.THROW_ERROR_ON_NULL)); [reflexivity|done|].
  intros child [->|[->|H]%elem_of_cons]%elem_of_cons;
    [eexists; by repeat split | eexists; by repeat split | by apply elem_of_nil in H].
Defined.

(** ** [validateValues], mode by mode *)

Lemma filter_no_null (values : list JSValue) :
  has_null values = false → filter (λ value, is_null value = false) values = values.
Proof.
  unfold has_null. induction values as [|value values IH]; [done|].
  simpl. intros [Hv Hr]%orb_false_elim.
  rewrite filter_cons_True by done. by rewrite IH.
Qed.

Lemma zero_before_no_null (values : list JSValue) :
  has_null values = false → zero_before_each_null values = values.
Proof.
  unfold has_null. induction values as [|value values IH]; [done|].
  simpl. intros [Hv Hr]%orb_false_elim.
  change (zero_before_each_null (value :: values))
    with ((if is_null value then [JSNumber (of_Z 0); value] else [value])
          ++ zero_before_each_null values).
  by rewrite Hv, IH.
Qed.

(** X18.  A list without a null operand comes back unchanged, element
    for element, in every mode, the three constants and any other
    string alike. *)
Theorem validateValues_keeps_list_without_null
    (h : Node.heap) (this : Node.addr) (node : Node.t) (values : list JSValue) :
  h !! this = Some node →
  has_null values = false →
  completion (Node.validateValues h this (Some values)) = Normal values.
Proof.
  intros H Hn. rewrite (validateValues_loop _ _ _ _ H).
  by rewrite validate_loop_without_null.
Qed.

Lemma validateValues_keeps_list_without_null_example :
  completion (Node.validateValues linked_tree 0 (Some [JSNumber (of_Z 2); JSUndefined]))
  = Normal [JSNumber (of_Z 2); JSUndefined].
Proof.
  apply (validateValues_keeps_list_without_null linked_tree 0
           (Node.mk None
              (Node.ItemOperation (Operation.new "+" false (λ values, mret JSUndefined)))
              [1; 2] JSUndefined Tree.THROW_ERROR_ON_NULL)); reflexivity.
Defined.

(** X19.  Under [DROP_NULL] validation returns the operands that are
    not null, in their order, and nothing else: the result holds no
    null and is silent. *)
Theorem drop_null_removes_exactly_the_nulls
    (h : Node.heap) (this : Node.addr) (node : Node.t) (values : list JSValue) :
  h !! this = Some node →
  Node.nullHandlingMode node = Tree.DROP_NULL →
  Node.validateValues h this (Some values)
  = mret (filter (λ value, is_null value = false) values)
  ∧ has_null (filter (λ value, is_null value = false) values) = false.
Proof.
  intros H Hm. split; [by apply (drop_null_drops_each_null _ _ node)|].
  unfold has_null. induction values as [|value values IH]; [done|].
  destruct (is_null value) eqn:E.
  - by rewrite filter_cons_False by (rewrite E; done).
  - rewrite filter_cons_True by done. simpl. by rewrite E, IH.
Qed.

Lemma drop_null_removes_exactly_the_nulls_example :
  Node.validateValues (single_leaf JSNull Tree.DROP_NULL) 0
    (Some [JSNull; JSNumber (of_Z 2); JSNull])
  = mret [JSNumber (of_Z 2)].
Proof.
  apply (proj1 (drop_null_removes_exactly_the_nulls (single_leaf JSNull Tree.DROP_NULL) 0
           (Node.mk None (Node.ItemValue (Value.new (Value.Literal JSNull) None))
                    [] JSUndefined Tree.DROP_NULL)
           [JSNull; JSNumber (of_Z 2); JSNull] eq_refl eq_refl)).
Defined.

(** X20.  Validation of a list fails exactly when some operand is
    null and the mode is either [THROW_ERROR_ON_NULL] or a value that
    cannot be turned into text, as a Symbol; in every other case, for
    every other mode, string or not, it completes. *)
Theorem validateValues_fails_iff
    (h : Node.heap) (this : Node.addr) (node : Node.t) (values : list JSValue) :
  h !! this = Some node →
  raised (Node.validateValues h this (Some values)) ≠ None
  ↔ has_null values = true
    ∧ (Node.nullHandlingMode node = Tree.THROW_ERROR_ON_NULL
       ∨ unprintable (Node.nullHandlingMode node)).
Proof. apply validateValues_raises_iff. Qed.

Lemma validateValues_fails_iff_example :
  raised (Node.validateValues linked_tree 0 (Some [JSNull])) ≠ None
  ↔ has_null [JSNull] = true
    ∧ (Tree.Text Tree.THROW_ERROR_ON_NULL = Tree.THROW_ERROR_ON_NULL
       ∨ unprintable Tree.THROW_ERROR_ON_NULL).
Proof.
  apply (validateValues_fails_iff linked_tree 0
           (Node.mk None
              (Node.ItemOperation (Operation.new "+" false (λ values, mret JSUndefined)))
              [1; 2] JSUndefined Tree.THROW_ERROR_ON_NULL) [JSNull]).
  reflexivity.
Defined.

(** X21.  The failure is a NullValueError exactly when, besides, the
    node can be serialized for the message; [JSON.stringify] of a node
    either completes or raises a TypeError, so that otherwise the
    failure is that TypeError. *)
Theorem validateValues_NullValueError_iff
    (h : Node.heap) (this : Node.addr) (node : Node.t) (values : list JSValue) :
  h !! this = Some node →
  (raised (Node.validateValues h this (Some values)) = Some NullValueError
   ↔ Node.nullHandlingMode node = Tree.THROW_ERROR_ON_NULL ∧ has_null values = true
     ∧ raised (Node.JSON_stringify h this) = None)
  ∧ (raised (Node.JSON_stringify h this) = None
     ∨ raised (Node.JSON_stringify h this) = Some TypeError).
Proof.
  intros H. split.
  - by apply validateValues_raises_NullValueError_iff.
  - apply JSON_stringify_raises.
Qed.

Lemma validateValues_NullValueError_iff_example :
  raised (Node.validateValues (single_leaf JSNull Tree.THROW_ERROR_ON_NULL) 0
            (Some [JSNull])) = Some NullValueError
  ↔ Tree.Text Tree.THROW_ERROR_ON_NULL = Tree.THROW_ERROR_ON_NULL
    ∧ has_null [JSNull] = true
    ∧ raised (Node.JSON_stringify (single_leaf JSNull Tree.THROW_ERROR_ON_NULL) 0) = None.
Proof.
  apply (validateValues_NullValueError_iff
           (single_leaf JSNull Tree.THROW_ERROR_ON_NULL) 0
           (Node.mk None (Node.ItemValue (Value.new (Value.Literal JSNull) None))
                    [] JSUndefined Tree.THROW_ERROR_ON_NULL) [JSNull]).
  reflexivity.
Defined.

(** ** The message of the NullValueError *)

Lemma JSON_serialize_unfold (h : Node.heap) budget stack a :
  Node.JSON_serialize h (S budget) stack a
  = if bool_decide (a ∈ stack)
    then throw TypeError "Converting circular structure to JSON"
    else
      node ← Node.deref h a;
      parent ← match Node.parent node with
               | None => mret JNull
               | Some p => Node.JSON_serialize h budget (a :: stack) p
               end;
      children ← for_of (λ child elements,
                           element ← Node.JSON_serialize h budget (a :: stack) child;
                           mret (elements ++ [element]))
                        (Node.children node) [];
      mret (Node.object_JSON node parent children).
Proof. reflexivity. Qed.

Lemma for_of_completes_each {A S} (body : A → S → Run S) l s x :
  raised (for_of body l s) = None → x ∈ l → ∃ s', raised (body x s') = None.
Proof.
  revert s. induction l as [|y l IH]; intros s H Hx; [by apply elem_of_nil in Hx|].
  rewrite for_of_cons, raised_bind in H.
  destruct (completion (body y s)) as [s1|e] eqn:E; [|done].
  apply elem_of_cons in Hx as [->|Hx]; [|by apply (IH s1)].
  exists s. unfold raised. by rewrite E.
Qed.

Lemma serialize_back_link (h : Node.heap) budget this child c :
  h !! child = Some c → Node.parent c = Some this →
  raised (Node.JSON_serialize h budget [this] child) ≠ None.
Proof.
  intros Hc Hp. destruct budget as [|budget]; [done|].
  rewrite JSON_serialize_unfold. destruct (bool_decide (child ∈ [this])); [done|].
  rewrite (deref_some _ _ _ Hc), bind_ret, Hp, raised_bind.
  destruct budget as [|budget]; [done|].
  rewrite JSON_serialize_unfold.
  rewrite bool_decide_eq_true_2 by (right; left). done.
Qed.

Lemma stringify_back_link (h : Node.heap) this node child c :
  h !! this = Some node → child ∈ Node.children node →
  h !! child = Some c → Node.parent c = Some this →
  raised (Node.JSON_stringify h this) = Some TypeError.
Proof.
  intros H Hin Hc Hp.
  destruct (JSON_stringify_raises h this) as [Hnone|]; [|done].
  exfalso. unfold Node.JSON_stringify in Hnone.
  rewrite JSON_serialize_unfold in Hnone.
  rewrite bool_decide_eq_false_2 in Hnone by apply not_elem_of_nil.
  rewrite (deref_some _ _ _ H), bind_ret, raised_bind in Hnone.
  destruct (completion match Node.parent node with
                       | Some p => Node.JSON_serialize h (size h) [this] p
                       | None => mret JNull
                       end) as [parent|e]; [|done].
  rewrite raised_bind in Hnone.
  destruct (completion (for_of _ (Node.children node) [])) as [children|e] eqn:E;
    [|done].
  assert (Hloop : raised (for_of (λ child elements,
                                    element ← Node.JSON_serialize h (size h) [this] child;
                                    mret (elements ++ [element]))
                                 (Node.children node) []) = None).
  { unfold raised. by rewrite E. }
  destruct (for_of_completes_each _ _ _ child Hloop Hin) as [elements Hchild].
  rewrite raised_bind in Hchild.
  apply (serialize_back_link h (size h) this child c Hc Hp).
  unfold raised.
  by destruct (completion (Node.JSON_serialize h (size h) [this] child)).
Qed.


(** X22.  On a node that has a child whose [parent] is the node
    itself, validation in the throwing mode of a list with a null
    never raises a NullValueError: serializing the node for the
    message raises a TypeError first. *)
Theorem throw_mode_on_any_linked_node_raises_TypeError
    (h : Node.heap) (this child : Node.addr) (node c : Node.t) (values : list JSValue) :
  h !! this = Some node →
  Node.nullHandlingMode node = Tree.THROW_ERROR_ON_NULL →
  child ∈ Node.children node →
  h !! child = Some c →
  Node.parent c = Some this →
  has_null values = true →
  raised (Node.validateValues h this (Some values)) = Some TypeError.
Proof.
  intros H Hm Hin Hc Hp Hn.
  rewrite (throw_mode_validation _ _ _ _ H Hm), Hn, raised_bind.
  pose proof (stringify_back_link h this node child c H Hin Hc Hp) as Hr.
  unfold raised in Hr.
  destruct (completion (Node.JSON_stringify h this)) as [|e]; [done|].
  exact Hr.
Qed.

Lemma throw_mode_on_any_linked_node_raises_TypeError_example :
  raised (Node.validateValues linked_tree 0 (Some [JSNull; JSNull])) = Some TypeError.
Proof.
  apply (throw_mode_on_any_linked_node_raises_TypeError linked_tree 0 2
           (Node.mk None
              (Node.ItemOperation (Operation.new "+" false (λ values, mret JSUndefined)))
              [1; 2] JSUndefined Tree.THROW_ERROR_ON_NULL)
           (Node.mk (Some 0) (Node.ItemValue (Value.new (Value.Literal JSNull) None))
                    [] JSUndefined Tree.THROW_ERROR_ON_NULL));
    try reflexivity.
  right; left.
Defined.



(** ** [Tree.forEach] *)

Lemma laid_out_kids (h : Node.heap) a kids k :
  laid_out h (Shape a kids) → k ∈ kids → laid_out h k.
Proof.
  intros [_ H] Hin. induction kids as [|k' kids IH]; [by apply elem_of_nil in Hin|].
  destruct H as [Hk Hrest].
  apply elem_of_cons in Hin as [->|Hin]; [exact Hk | by apply IH].
Qed.

Lemma height_kids a kids k :
  k ∈ kids → (S (height k) ≤ height (Shape a kids))%nat.
Proof.
  intros Hin. cbn [height]. apply le_n_S.
  induction kids as [|k' kids IH]; [by apply elem_of_nil in Hin|].
  rewrite fmap_cons. cbn [fold_right].
  apply elem_of_cons in Hin as [->|Hin]; [lia|].
  specialize (IH Hin). lia.
Qed.

Section Walk.

Variables (h : Node.heap) (f : Walk.Param → Run unit) (providesItem : bool).

Let visit (a : Node.addr) (_ : unit) : Run unit := f (param_at h providesItem a).

Lemma forEach_from_unfold depth node :
  Walk.forEach_from h (S depth) node f providesItem
  = (n ← Node.deref h node;
     f (if providesItem then Walk.ParamItem (Node.item n) else Walk.ParamNode node);;
     if Nat.eqb (length (Node.children n)) 0 then mret tt
     else for_of (λ child _, Walk.forEach_from h depth child f providesItem)
                 (Node.children n) tt).
Proof. reflexivity. Qed.

Lemma walk_kids depth kids :
  (∀ k, k ∈ kids →
     Walk.forEach_from h depth (top k) f providesItem = for_of visit (preorder k) tt) →
  for_of (λ child _, Walk.forEach_from h depth child f providesItem) (top <$> kids) tt
  = for_of visit (flat_map preorder kids) tt.
Proof.
  induction kids as [|k kids IH]; intros H; [done|].
  rewrite fmap_cons, for_of_cons. cbn [flat_map]. rewrite for_of_app.
  rewrite (H k) by left. apply bind_ext. intros [].
  apply IH. intros k' Hk'. apply H. by right.
Qed.

Lemma forEach_from_preorder depth t :
  laid_out h t → (height t ≤ depth)%nat →
  Walk.forEach_from h depth (top t) f providesItem = for_of visit (preorder t) tt.
Proof.
  revert t. induction depth as [|depth IH]; intros [a kids] Hl Hh.
  - cbn [height] in Hh. lia.
  - pose proof Hl as [(n & Hn & Hkids) _].
    cbn [top preorder]. rewrite forEach_from_unfold, for_of_cons.
    rewrite (deref_some _ _ _ Hn), bind_ret.
    assert ((if providesItem then Walk.ParamItem (Node.item n) else Walk.ParamNode a)
            = param_at h providesItem a) as ->.
    { unfold param_at. by rewrite Hn. }
    apply bind_ext. intros [].
    assert (Hloop : for_of (λ child _, Walk.forEach_from h depth child f providesItem)
                      (Node.children n) tt
                    = for_of visit (flat_map preorder kids) tt).
    { rewrite Hkids. apply walk_kids. intros k Hk. apply IH.
      - by apply (laid_out_kids h a kids).
      - pose proof (height_kids a kids k Hk). lia. }
    rewrite Hloop, Hkids. by destruct kids.
Qed.

End Walk.

(** X24.  [forEach] walks a tree in pre-order: on a store that holds a
    finite tree, with room on the stack for its height, it calls the
    function once per node, a node before its children and the
    children from left to right, with the item of the node unless
    [providesItem] is false, and does nothing else; it stops at the
    first call that throws. *)
Theorem forEach_walks_in_preorder
    (this : Tree.t) (h : Node.heap) (f : Walk.Param → Run unit)
    (providesItem : option bool) (depth : nat) (t : shape) :
  laid_out h t →
  (height t ≤ depth)%nat →
  Walk.forEach this h depth (Some (top t)) f providesItem
  = for_of (λ a _, f (param_at h (default true providesItem) a)) (preorder t) tt
  ∧ (Tree.root this = top t →
     Walk.forEach this h depth None f providesItem
     = for_of (λ a _, f (param_at h (default true providesItem) a)) (preorder t) tt).
Proof.
  intros Hl Hh. split; [by apply forEach_from_preorder|].
  intros Hr. unfold Walk.forEach. cbn [default]. rewrite Hr.
  by apply forEach_from_preorder.
Qed.

Lemma forEach_walks_in_preorder_example :
  Walk.forEach (Tree.mk 0 Tree.THROW_ERROR_ON_NULL) linked_tree 2 (Some 0)
    (λ param, match param with
              | Walk.ParamNode a => console_log (if Nat.eqb a 0 then "root" else "leaf")
              | Walk.ParamItem _ => mret tt
              end)
    (Some false)
  = mkRun [ConsoleLog "root"; ConsoleLog "leaf"; ConsoleLog "leaf"] (Normal tt).
Proof.
  rewrite (proj1 (forEach_walks_in_preorder (Tree.mk 0 Tree.THROW_ERROR_ON_NULL)
                    linked_tree _ (Some false) 2 (Shape 0 [Shape 1 []; Shape 2 []])
                    ltac:(repeat split; eexists; split; reflexivity)
                    ltac:(simpl; lia))).
  reflexivity.
Defined.

(** ** Tokens and the text they come from *)

Lemma join_snoc (l : list string) (x : string) : join (l ++ [x]) = join l +:+ x.
Proof.
  induction l as [|y l IH].
  - change (x +:+ "" = "" +:+ x). by rewrite append_empty.
  - change (y +:+ join (l ++ [x]) = (y +:+ join l) +:+ x).
    by rewrite IH, append_assoc.
Qed.

Section RoundTrip.

Variable is_operation : string → Run bool.
Variable operator : string → bool.
Hypothesis is_operation_answers :
  ∀ char answer, completion (is_operation char) = Normal answer → answer = operator char.

(** The text scanned so far that has not been dropped. *)
Let text (s : XParser.scan) : string :=
  join (XParser.scan_tokens s) +:+ XParser.currentToken s.

Lemma text_flush s : text (XParser.flush s) = text s.
Proof.
  unfold text. cbn [XParser.flush XParser.scan_tokens XParser.currentToken].
  by rewrite join_snoc, append_empty.
Qed.

Lemma text_flush_nonempty s :
  text (XParser.flush_nonempty s) = text s
  ∧ XParser.currentToken (XParser.flush_nonempty s) = "".
Proof.
  unfold XParser.flush_nonempty.
  destruct (String.eqb (XParser.currentToken s) "") eqn:E.
  - by apply String.eqb_eq in E.
  - split; [apply text_flush | done].
Qed.

Lemma text_extend char s : text (XParser.extend char s) = text s +:+ char.
Proof. unfold text. simpl. by rewrite append_assoc. Qed.

Lemma text_remember char s : text (XParser.remember char s) = text s.
Proof. reflexivity. Qed.

Lemma text_emit char s :
  XParser.currentToken s = "" → text (XParser.emit char s) = text s +:+ char.
Proof.
  intros H. unfold text. cbn [XParser.emit XParser.scan_tokens XParser.currentToken].
  by rewrite join_snoc, H, !append_empty.
Qed.

Lemma scan_char_text char s s' :
  completion (XParser.scan_char is_operation char s) = Normal s' →
  text s' = text s +:+ (if kept operator char then char else "").
Proof.
  unfold XParser.scan_char, kept.
  destruct (XParser._isNumber char).
  { intros [= <-]. rewrite text_remember, text_extend.
    by destruct (_ && _ && _); rewrite ?text_flush. }
  destruct (XParser._isLetter char).
  { intros [= <-]. rewrite text_remember, text_extend.
    by destruct (_ && _); rewrite ?text_flush. }
  destruct (XParser._isComma char).
  { intros [= <-]. by rewrite append_empty. }
  destruct (XParser._isDecimalPoint char).
  { intros [= <-]. by rewrite text_remember, text_extend. }
  intros (answer & Ha & H)%completion_bind_normal.
  apply is_operation_answers in Ha as ->.
  destruct (text_flush_nonempty s) as [Ht Hc].
  destruct (operator char); [|destruct (XParser._isLeftParen char)].
  - injection H as <-. by rewrite text_remember, text_emit, Ht.
  - injection H as <-. by rewrite text_remember, text_emit, Ht.
  - apply completion_bind_normal in H as (? & _ & H1). injection H1 as <-.
    by rewrite text_remember, append_empty.
Qed.

Lemma scan_text l s s' :
  completion (for_of (XParser.scan_char is_operation) l s) = Normal s' →
  text s' = text s +:+ join (filter (λ char, kept operator char = true) l).
Proof.
  revert s. induction l as [|char l IH]; intros s H.
  - injection H as <-. by rewrite append_empty.
  - rewrite for_of_cons in H.
    apply completion_bind_normal in H as (s1 & H1 & H2).
    rewrite (IH _ H2), (scan_char_text _ _ _ H1), append_assoc.
    destruct (kept operator char) eqn:E.
    + by rewrite filter_cons_True by done.
    + rewrite filter_cons_False by (rewrite E; done). done.
Qed.

(** X25.  Nothing is invented and nothing kept is reordered: when the
    loop of the scan completes in the state [s], the tokens returned
    are those of [s], and these tokens put end to end, followed by
    what is left in [currentToken], are exactly the expression
    without its commas and its unexpected characters. *)
Theorem tokens_spell_the_expression (expression : string) (s : XParser.scan) :
  completion (for_of (XParser.scan_char is_operation) (chars expression)
                (XParser.mkScan [] "" "")) = Normal s →
  completion (XParser.tokenize is_operation expression)
  = Normal (XParser.scan_tokens s)
  ∧ join (XParser.scan_tokens s) +:+ XParser.currentToken s
    = join (filter (λ char, kept operator char = true) (chars expression)).
Proof.
  intros Hs. split.
  - unfold XParser.tokenize. by erewrite bind_normal by exact Hs.
  - exact (scan_text _ _ _ Hs).
Qed.

End RoundTrip.

Lemma tokens_spell_the_expression_example :
  completion (XParser.tokenize (λ char, mret (String.eqb char "+")) "(1,2+ab)")
  = Normal ["("; "12"; "+"]
  ∧ join ["("; "12"; "+"] +:+ "ab"
    = join (filter (λ char, kept (λ char, String.eqb char "+") char = true)
                   (chars "(1,2+ab)")).
Proof.
  assert (Hop : ∀ char answer,
             completion (mret (String.eqb char "+") : Run bool) = Normal answer →
             answer = String.eqb char "+") by (by intros char answer [= <-]).
  exact (tokens_spell_the_expression (λ char, mret (String.eqb char "+"))
           (λ char, String.eqb char "+") Hop
           "(1,2+ab)" (XParser.mkScan ["("; "12"; "+"] "ab" ")") eq_refl).
Defined.

Lemma numeric_literal_yields_no_token_example :
  XParser.tokenize (XParser._isOperation connected) "1,234.5" = mret [].
Proof.
  apply (numeric_literal_yields_no_token (XParser._isOperation connected) "1,234.5").
  reflexivity.
Defined.

Lemma tokens_are_nonempty_example :
  "" ∉ ["12"; "+"; "("].
Proof.
  apply (tokens_are_nonempty (λ char, mret (String.eqb char "+")) "12+(ab").
  reflexivity.
Defined.
